(** * Gear Hover Reveal: a shallow embedding of [app.js]

    The development follows the order of the source file: the numeric
    conversions JavaScript applies implicitly, the foreground classifier
    [isForeground], the segmentation [buildComponentMap], the item tables
    of [buildItemMappings], the hit test [componentAtClientXY], the
    compositor [redraw] and the start-up sequence [init].

    The first part is the model, function by function; the second part
    holds the proofs.

    Conventions.
    - A JavaScript number that holds an integer is a [Z].  A number that may
      hold a fraction (an anchor coordinate, a pointer position, a side of
      the bounding rectangle) is a [Q] with exact arithmetic in the item
      tables and in the pointer listeners, whose properties depend on the
      label a hit test returns and not on how it rounds.  The hit test
      itself is also given as the source computes it, in double precision
      with its rounding, infinities and NaN (module [F64], over the
      kernel's binary64 numbers).
    - A typed array is a [list Z]; a read outside the array is [None]
      (JavaScript's [undefined]) and a write outside it is dropped.
    - [Map] and [Set] are stdpp's [gmap] and [gset].
    - [null] is [None].
    - The module-level [let] variables are the fields of [G.t]; a function
      that assigns to them takes the state and returns the new one.
    - The [while] loop of the flood fill runs on fuel and yields [None]
      when the fuel is spent; [segment_inv] shows that it never is. *)

From Stdlib Require Import ZArith QArith Qround Lia Lqa Floats.
From stdpp Require Import base list gmap strings.

Local Open Scope Z_scope.
#[local] Set Warnings "-clear-no-such-hyp".

(** ** Numbers and typed arrays *)

Module JS.

(** [ToUint32]: what a [Uint32Array] keeps of an integer stored into it. *)
Definition to_uint32 (z : Z) : Z := z mod 2 ^ 32.

(** [ToInt32]: the operand conversion of the bitwise operators, so that
    [v | 0] is [to_int32] of the truncation of [v]. *)
Definition to_int32 (z : Z) : Z :=
  let m := z mod 2 ^ 32 in
  if m <? 2 ^ 31 then m else m - 2 ^ 32.

(** [a[i]] for an integer index: [undefined] outside the array. *)
Definition get {A} (a : list A) (i : Z) : option A :=
  if i <? 0 then None else a !! Z.to_nat i.

(** [a[i] = v] on a typed array: dropped outside the array. *)
Definition set {A} (a : list A) (i : Z) (v : A) : list A :=
  if i <? 0 then a else <[Z.to_nat i := v]> a.

(** [v || 0] for [v] a number or [undefined]. *)
Definition or_zero (v : option Z) : Z :=
  match v with
  | Some n => if n =? 0 then 0 else n
  | None => 0
  end.

(** Truthiness of a value that is [null] or a string: the empty string is
    falsy like [null]. *)
Definition truthy (v : option string) : bool :=
  match v with
  | Some s => negb (String.eqb s "")
  | None => false
  end.

(** [for (let i = start; ...; i++)] running [n] times over a body that can
    fail to produce a state. *)
Fixpoint for_range_opt {St} (n : nat) (i : Z) (body : Z → St → option St)
  (s : St) : option St :=
  match n with
  | O => Some s
  | S n' =>
      match body i s with
      | Some s' => for_range_opt n' (i + 1) body s'
      | None => None
      end
  end.

(** The same loop over a body that always produces a state. *)
Fixpoint for_range {St} (n : nat) (i : Z) (body : Z → St → St) (s : St) : St :=
  match n with
  | O => s
  | S n' => for_range n' (i + 1) body (body i s)
  end.

End JS.

(** ** Foreground classifier (app.js, isForeground) *)

(** [brightness] is the quotient [(r + g + b) / 3], a fraction in general.
    The source compares its double-precision value with 245; the division
    rounds monotonically and 245 is a double, so the comparison comes out
    as on the exact quotient. *)
Definition brightness (r g b : Z) : Q := (inject_Z (r + g + b) / 3)%Q.

Definition isForeground (r g b : Z) : bool :=
  if (r >? 245) && (g >? 245) && (b >? 245) then false
  else if Qlt_le_dec (brightness r g b) 245 then true else false.

(** ** Module state (the [let] variables of app.js) *)

Module G.
Record t := mk {
  W : Z;
  H : Z;
  greyData : list Z;                      (* greyData.data *)
  colorData : list Z;                     (* colorData.data *)
  compIdAt : list Z;                      (* Uint32Array, 0 = background *)
  compCount : Z;
  compToItemKey : gmap Z string;          (* componentId -> itemKey *)
  itemKeyToInfo : gmap string (string * string);
  itemKeyToComps : gmap string (gset Z);  (* itemKey -> Set(componentIds) *)
  hoverItemKey : option string;
  canvas : list Z                         (* the pixels the 2d context holds *)
}.

(** The state the script starts from. *)
Definition initial : t :=
  mk 0 0 [] [] [] 0 ∅ ∅ ∅ None [].

Definition with_segmentation (g : t) (ids : list Z) (n : Z) : t :=
  mk (W g) (H g) (greyData g) (colorData g) ids n (compToItemKey g)
     (itemKeyToInfo g) (itemKeyToComps g) (hoverItemKey g) (canvas g).

Definition with_tables (g : t) (keys : gmap Z string)
  (info : gmap string (string * string)) (comps : gmap string (gset Z)) : t :=
  mk (W g) (H g) (greyData g) (colorData g) (compIdAt g) (compCount g)
     keys info comps (hoverItemKey g) (canvas g).

Definition with_hover (g : t) (k : option string) : t :=
  mk (W g) (H g) (greyData g) (colorData g) (compIdAt g) (compCount g)
     (compToItemKey g) (itemKeyToInfo g) (itemKeyToComps g) k (canvas g).

Definition with_canvas (g : t) (px : list Z) : t :=
  mk (W g) (H g) (greyData g) (colorData g) (compIdAt g) (compCount g)
     (compToItemKey g) (itemKeyToInfo g) (itemKeyToComps g) (hoverItemKey g) px.

Definition with_images (g : t) (w h : Z) (grey color : list Z) : t :=
  mk w h grey color (compIdAt g) (compCount g)
     (compToItemKey g) (itemKeyToInfo g) (itemKeyToComps g) (hoverItemKey g)
     (canvas g).
End G.

(** ** Segmentation (app.js, buildComponentMap) *)

(** [idx] is the closure of the same name, with the width it captures. *)
Definition idx (W x y : Z) : Z := y * W + x.

(** The classifier applied to the three colour channels of pixel [p], as
    both loops do it ([i = p * 4], then [data[i]], [data[i + 1]],
    [data[i + 2]]).  A channel read outside the buffer is [undefined], which
    fails [> 245] and turns the brightness into NaN, which fails [< 245]:
    the pixel is then not foreground. *)
Definition foregroundAt (data : list Z) (p : Z) : bool :=
  let i := p * 4 in
  match JS.get data i, JS.get data (i + 1), JS.get data (i + 2) with
  | Some r, Some g, Some b => isForeground r g b
  | _, _, _ => false
  end.

(** The variables the loops of [buildComponentMap] update.  The top of
    [stack] (the end of the JavaScript array) is the head of the list. *)
Record Seg := mkSeg {
  ids : list Z;
  currentId : Z;
  stack : list Z
}.

(** Body of [for (const [nx, ny] of nbs)]. *)
Definition visit (W H : Z) (data : list Z) (s : Seg) (n : Z * Z) : Seg :=
  let '(nx, ny) := n in
  if (nx <? 0) || (nx >=? W) || (ny <? 0) || (ny >=? H) then s
  else
    let np := idx W nx ny in
    match JS.get (ids s) np with
    | Some 0 =>
        if negb (foregroundAt data np)
        then mkSeg (JS.set (ids s) np 0) (currentId s) (stack s)
        else mkSeg (JS.set (ids s) np (JS.to_uint32 (currentId s)))
                   (currentId s) (np :: stack s)
    | _ => s
    end.

(** The four neighbours of [q], in the order the source lists them.
    [q % W] is the remainder that takes the sign of [q], and [(q / W) | 0]
    truncates the quotient and converts it to a signed 32-bit integer. *)
Definition neighbours (W q : Z) : list (Z * Z) :=
  let qx := Z.rem q W in
  let qy := JS.to_int32 (Z.quot q W) in
  [(qx - 1, qy); (qx + 1, qy); (qx, qy - 1); (qx, qy + 1)].

(** [while (stack.length)]: one unit of fuel per iteration, [None] when the
    fuel is spent first. *)
Fixpoint flood (fuel : nat) (W H : Z) (data : list Z) (s : Seg) : option Seg :=
  match stack s with
  | [] => Some s
  | q :: rest =>
      match fuel with
      | O => None
      | S fuel' =>
          flood fuel' W H data
            (fold_left (visit W H data) (neighbours W q)
               (mkSeg (ids s) (currentId s) rest))
      end
  end.

(** Body of [for (let x = 0; x < W; x++)]. *)
Definition scanPixel (fuel : nat) (W H : Z) (data : list Z) (y x : Z) (s : Seg)
  : option Seg :=
  let p := idx W x y in
  match JS.get (ids s) p with
  | Some 0 =>
      if negb (foregroundAt data p)
      then Some (mkSeg (JS.set (ids s) p 0) (currentId s) (stack s))
      else
        let cur := currentId s + 1 in
        flood fuel W H data
          (mkSeg (JS.set (ids s) p (JS.to_uint32 cur)) cur (p :: stack s))
  | _ => Some s
  end.

Definition scanRow (fuel : nat) (W H : Z) (data : list Z) (y : Z) (s : Seg)
  : option Seg :=
  JS.for_range_opt (Z.to_nat W) 0 (scanPixel fuel W H data y) s.

Definition scan (fuel : nat) (W H : Z) (data : list Z) (s : Seg) : option Seg :=
  JS.for_range_opt (Z.to_nat H) 0 (scanRow fuel W H data) s.

(** The whole of [buildComponentMap] on the image size it reads from the
    module state: the label array, allocated as [W * H] zeros, and the
    number of labels. *)
Definition segment (fuel : nat) (W H : Z) (data : list Z) : option (list Z * Z) :=
  match scan fuel W H data (mkSeg (replicate (Z.to_nat (W * H)) 0) 0 []) with
  | Some s => Some (ids s, currentId s)
  | None => None
  end.

Definition buildComponentMap_fuel (fuel : nat) (g : G.t) (data : list Z)
  : option G.t :=
  match segment fuel (G.W g) (G.H g) data with
  | Some (l, n) => Some (G.with_segmentation g l n)
  | None => None
  end.

(** Every iteration of the [while] loop pops a pixel that was pushed when
    it got its label, so [W * H] iterations are enough for each fill. *)
Definition buildComponentMap (g : G.t) (data : list Z) : option G.t :=
  buildComponentMap_fuel (Z.to_nat (G.W g * G.H g)) g data.

(** ** Item mapping (app.js, ITEMS and buildItemMappings) *)

Record Item := mkItem {
  key : string;
  title : string;
  pts : list (Q * Q);
  message : string
}.

Definition ITEMS : list Item := [
  mkItem "skis" "Skis" [(0.198, 0.546); (0.153, 0.552)]%Q
    "Skis — You 2 pairs now! One with skins and a fresh wax as well!";
  mkItem "poles" "Ski Poles" [(0.106, 0.731); (0.080, 0.75)]%Q
    "Poles — Having powder baskets is useful, height adjusted ones are not as necessary.";
  mkItem "backpack" "Backpack" [(0.33, 0.20)]%Q
    "Backpack — You have a bunch of backpacks already... Perhaps one more?";
  mkItem "bib" "Snow Bib" [(0.58, 0.60)]%Q
    "Bib — I'm a bib fan.";
  mkItem "jacket" "Bib and Jacket" [(0.58, 0.32)]%Q
    "The main protection against the elements. I'm a bib-lover but regular pants work fine. A good shell and mid layer make all the difference.";
  mkItem "shovel" "Shovel" [(0.296, 0.650)]%Q
    "Shovel — Part of the essentials...";
  mkItem "probe" "Probe" [(0.395, 0.48)]%Q
    "Probe — Pokie pokie. Not too expensive.";
  mkItem "beacon" "Transceiver" [(0.290, 0.861)]%Q
    "Transceiver — There are a bunch of different models, and they all do the same thing, as long as you know how to use it.";
  mkItem "boots" "Ski Boots" [(0.425, 0.73)]%Q
    "Boots — You have tried a couple different ones on, perhaps you can have mine if I find a better pair...";
  mkItem "helmet" "Helmet" [(0.755, 0.65)]%Q
    "Helmet — I use my climbing helmet, or sometimes no helment, depending the day. I know you have one but it might be too bulky for backcountry.";
  mkItem "gloves" "Gloves" [(0.863, 0.696)]%Q
    "Gloves — Either a pair of waterproof ones for rain, or heavier duty ones for skiing... Or both!";
  mkItem "goggles" "Goggles" [(0.821, 0.360)]%Q
    "Goggles — I think you have a decent pair already, take good care of them.";
  mkItem "crampons" "Crampons" [(0.898, 0.889)]%Q
    "Crampons — These don't get used too often, but when you need them, its very handy to have.";
  mkItem "axe" "Piolet" [(0.736, 0.180)]%Q
    "Piolet — I don't have one yet either.";
  mkItem "rope" "Rope" [(0.839, 0.184)]%Q
    "Rope — Twin ropes could be really cool to have, but we have 2 ropes already...";
  mkItem "harness" "Harness" [(0.798, 0.490)]%Q
    "Harness — Perhaps something with better gear loops?";
  mkItem "socks" "Socks" [(0.72, 0.89)]%Q
    "Socks — One can never have enough socks. For skiing, compression socks can be really nice."
].

(** [px = Math.floor(nx * W)] and [py = Math.floor(ny * H)]. *)
Definition anchorPixel (W H : Z) (pt : Q * Q) : Z * Z :=
  (Qfloor (fst pt * inject_Z W), Qfloor (snd pt * inject_Z H)).

(** [id = compIdAt[py * W + px] || 0]. *)
Definition anchorId (W H : Z) (ids : list Z) (pt : Q * Q) : Z :=
  let '(px, py) := anchorPixel W H pt in
  JS.or_zero (JS.get ids (py * W + px)).

(** Body of [for (const [nx, ny] of it.pts)]: [if (id) set.add(id)]. *)
Definition addAnchor (W H : Z) (ids : list Z) (set : gset Z) (pt : Q * Q)
  : gset Z :=
  let id := anchorId W H ids pt in
  if id =? 0 then set else {[id]} ∪ set.

Definition anchorSet (W H : Z) (ids : list Z) (pts : list (Q * Q)) : gset Z :=
  fold_left (addAnchor W H ids) pts ∅.

(** Body of [for (const it of ITEMS)]. *)
Definition mapItem (g : G.t) (it : Item) : G.t :=
  let set := anchorSet (G.W g) (G.H g) (G.compIdAt g) (pts it) in
  G.with_tables g
    (set_fold (λ id m, <[id := key it]> m) (G.compToItemKey g) set)
    (<[key it := (title it, message it)]> (G.itemKeyToInfo g))
    (<[key it := set]> (G.itemKeyToComps g)).

(** [buildItemMappings] over a catalog; the two [console.log] lines that
    end the function leave the state alone. *)
Definition buildItemMappings_of (items : list Item) (g : G.t) : G.t :=
  fold_left mapItem items (G.with_tables g ∅ ∅ ∅).

Definition buildItemMappings (g : G.t) : G.t := buildItemMappings_of ITEMS g.

(** ** Interaction helpers (app.js, componentAtClientXY) *)

(** The part of [canvas.getBoundingClientRect()] the script reads. *)
Record Rect := mkRect {
  rect_left : Q;
  rect_top : Q;
  rect_width : Q;
  rect_height : Q
}.

(** The image coordinates [x] and [y] of a pointer position, in exact
    arithmetic; [F64.clientToPixel] below rounds as the source does. *)
Definition clientToPixel (W H : Z) (rect : Rect) (cx cy : Q) : Z * Z :=
  (Qfloor ((cx - rect_left rect) * (inject_Z W / rect_width rect)),
   Qfloor ((cy - rect_top rect) * (inject_Z H / rect_height rect))).

Definition componentAtClientXY (W H : Z) (ids : list Z) (rect : Rect)
  (cx cy : Q) : Z :=
  let '(x, y) := clientToPixel W H rect cx cy in
  if (x <? 0) || (x >=? W) || (y <? 0) || (y >=? H) then 0
  else JS.or_zero (JS.get ids (y * W + x)).

(** *** The hit test in double precision *)

Module F64.

(** What [Math.floor] returns: an integer, NaN or an infinity.  The floor
    of -0 is -0, which the comparisons and the index below treat as 0. *)
Inductive num :=
  | NaN
  | PInf
  | NInf
  | Int (z : Z).

(** [Math.floor] on a double: a finite double is [m * 2 ^ e] with a sign. *)
Definition floor (f : float) : num :=
  match Prim2SF f with
  | S754_nan => NaN
  | S754_infinity false => PInf
  | S754_infinity true => NInf
  | S754_zero _ => Int 0
  | S754_finite s m e =>
      let v := if s then Z.neg m else Z.pos m in
      Int (if 0 <=? e then v * 2 ^ e else v / 2 ^ (- e))
  end.

(** The double that holds the integer [z]: [z] itself up to 2^53 in
    absolute value, the nearest double beyond. *)
Definition ofZ (z : Z) : float :=
  SF2Prim (binary_normalize prec emax z 0 false).


(** [x < 0] and [x >= n] on the result of a floor; a comparison with NaN
    is false. *)
Definition lt0 (x : num) : bool :=
  match x with
  | Int z => z <? 0
  | NInf => true
  | _ => false
  end.

Definition ge (x : num) (n : Z) : bool :=
  match x with
  | Int z => z >=? n
  | PInf => true
  | _ => false
  end.

(** The part of [canvas.getBoundingClientRect()] the script reads. *)
Record Rect := mkRect {
  rect_left : float;
  rect_top : float;
  rect_width : float;
  rect_height : float
}.

(** The image coordinates [x] and [y] of a pointer position. *)
Definition clientToPixel (W H : Z) (rect : Rect) (cx cy : float)
  : num * num :=
  (floor ((cx - rect_left rect) * (ofZ W / rect_width rect)),
   floor ((cy - rect_top rect) * (ofZ H / rect_height rect)))%float.

(** [componentAtClientXY].  A coordinate that is NaN passes the four
    comparisons; the index [y * W + x] is then NaN, the read is
    [undefined] and the result 0.  For coordinates inside the image the
    index is exact (a typed array has fewer than 2^53 elements). *)
Definition componentAtClientXY (W H : Z) (ids : list Z) (rect : Rect)
  (cx cy : float) : Z :=
  let '(x, y) := clientToPixel W H rect cx cy in
  if lt0 x || ge x W || lt0 y || ge y H then 0
  else
    match x, y with
    | Int px, Int py => JS.or_zero (JS.get ids (py * W + px))
    | _, _ => 0
    end.

End F64.

(** ** Compositor (app.js, redraw) *)

(** A channel of the colour buffer as a [Uint8ClampedArray] stores it: a
    byte is kept, and [undefined] becomes 0. *)
Definition channel (c : list Z) (i : Z) : Z := default 0 (JS.get c i).

(** The four assignments to [o] for pixel [p]. *)
Definition paint (c : list Z) (p : Z) (o : list Z) : list Z :=
  let i := p * 4 in
  JS.set (JS.set (JS.set (JS.set o i (channel c i))
                    (i + 1) (channel c (i + 1)))
            (i + 2) (channel c (i + 2)))
    (i + 3) 255.

(** [comps.has(compIdAt[p])]; a set of numbers does not hold [undefined]. *)
Definition selected (comps : gset Z) (ids : list Z) (p : Z) : bool :=
  match JS.get ids p with
  | Some id => bool_decide (id ∈ comps)
  | None => false
  end.

(** Body of [for (let p = 0; p < W * H; p++)]. *)
Definition recolor (comps : gset Z) (ids c : list Z) (p : Z) (o : list Z)
  : list Z :=
  if selected comps ids p then paint c p o else o.

(** [putImageData] stores the bytes it is given and [getImageData] returns
    the bytes the canvas holds; the canvas has the size of the image. *)
Definition redraw (g : G.t) : G.t :=
  let g1 := G.with_canvas g (G.greyData g) in
  if negb (JS.truthy (G.hoverItemKey g)) then g1
  else
    match G.hoverItemKey g ≫= (λ k, G.itemKeyToComps g !! k) with
    | None => g1
    | Some comps =>
        if decide (size comps = 0%nat) then g1
        else
          G.with_canvas g1
            (JS.for_range (Z.to_nat (G.W g * G.H g)) 0
               (recolor comps (G.compIdAt g) (G.colorData g)) (G.canvas g1))
    end.

(** The four channels of pixel [p] of a buffer. *)
Definition rgba (buf : list Z) (p : Z)
  : option Z * option Z * option Z * option Z :=
  (JS.get buf (p * 4), JS.get buf (p * 4 + 1),
   JS.get buf (p * 4 + 2), JS.get buf (p * 4 + 3)).

(** ** Pointer events (the listeners [init] installs) *)

(** [compToItemKey.get(comp) || null]. *)
Definition itemKeyAt (g : G.t) (comp : Z) : option string :=
  match G.compToItemKey g !! comp with
  | Some k => if JS.truthy (Some k) then Some k else None
  | None => None
  end.

Definition onMouseMove (rect : Rect) (cx cy : Q) (g : G.t) : G.t :=
  let comp :=
    componentAtClientXY (G.W g) (G.H g) (G.compIdAt g) rect cx cy in
  let itemKey := itemKeyAt g comp in
  if decide (itemKey = G.hoverItemKey g) then g
  else redraw (G.with_hover g itemKey).

Definition onMouseLeave (g : G.t) : G.t := redraw (G.with_hover g None).

(** The click listener: the title and message [openModal] shows, if any. *)
Definition onClick (rect : Rect) (cx cy : Q) (g : G.t)
  : option (string * string) :=
  let comp :=
    componentAtClientXY (G.W g) (G.H g) (G.compIdAt g) rect cx cy in
  match G.compToItemKey g !! comp with
  | Some k => if JS.truthy (Some k) then G.itemKeyToInfo g !! k else None
  | None => None
  end.

(** ** Start-up (app.js, mustFetch, loadImage, drawImageToData, init) *)

Definition GREY_FILE : string := "Grey_.png".
Definition COLOR_FILE : string := "Colour.png".

(** A decoded image as [init] uses it. *)
Record Image := mkImage {
  naturalWidth : Z;
  naturalHeight : Z;
  bitmap : list Z
}.

(** What the browser answers during [init]: whether each [fetch] came back
    with [res.ok]; what each [loadImage] resolved to ([None] when [onerror]
    fired) and, when both images fail, whether the colour image failed
    first ([Promise.all] rejects with the first rejection); the bytes
    [getImageData] returns for an image drawn into a canvas of a given
    width and height ([None] when [getContext], [drawImage] or
    [getImageData] throws: no 2D context, a canvas too large); whether
    [new Uint32Array(n)] can be allocated; and whether the elements
    [closeBtn] and [modal], which receive listeners last, exist. *)
Record Browser := mkBrowser {
  greyOk : bool;
  colorOk : bool;
  greyImg : option Image;
  colorImg : option Image;
  colorFailsFirst : bool;
  getImageData : Image → Z → Z → option (list Z);
  allocates : Z → bool;
  listenersOk : bool
}.


(** The errors the [catch] block of [init] reports: a fetch that failed, an
    image that failed to load, or another exception thrown inside the
    [try] block. *)
Inductive InitError :=
  | FetchFailed (file : string)
  | ImageFailed (file : string)
  | Thrown.

(** [drawImageToData(img, W, H)].  [getImageData(0, 0, W, H)] throws an
    [IndexSizeError] when [W] or [H] is 0. *)
Definition drawImageToData (b : Browser) (img : Image) (W H : Z)
  : option (list Z) :=
  if (W <=? 0) || (H <=? 0) then None else getImageData b img W H.

(** [init] up to the end of the [try] block; the listeners it installs are
    [onMouseMove], [onMouseLeave] and [onCanvasClick].  [None] only if the
    segmentation runs out of fuel. *)
Definition init_of (items : list Item) (b : Browser) (g : G.t)
  : option (InitError + G.t) :=
  if negb (greyOk b) then Some (inl (FetchFailed GREY_FILE))
  else if negb (colorOk b) then Some (inl (FetchFailed COLOR_FILE))
  else
    match greyImg b, colorImg b with
    | None, None =>
        Some (inl (ImageFailed
                     (if colorFailsFirst b then COLOR_FILE else GREY_FILE)))
    | None, Some _ => Some (inl (ImageFailed GREY_FILE))
    | Some _, None => Some (inl (ImageFailed COLOR_FILE))
    | Some greyI, Some colorI =>
        let w := naturalWidth greyI in
        let h := naturalHeight greyI in
        match drawImageToData b greyI w h, drawImageToData b colorI w h with
        | Some grey, Some color =>
            let g1 := G.with_images g w h grey color in
            if allocates b (w * h) then
              match buildComponentMap g1 (G.greyData g1) with
              | None => None
              | Some g2 =>
                  if listenersOk b
                  then Some (inr (redraw (buildItemMappings_of items g2)))
                  else Some (inl Thrown)
              end
            else Some (inl Thrown)
        | _, _ => Some (inl Thrown)
        end
    end.


(** ** Sample inputs *)

Definition black : list Z := [0; 0; 0; 255].
Definition white : list Z := [255; 255; 255; 255].

(** A 4 x 4 drawing with four components:
<<
      . # . #
      # # . .
      . . . #
      # . # #
>> *)
Definition sampleGrey : list Z :=
  concat [white; black; white; black;
          black; black; white; white;
          white; white; white; black;
          black; white; black; black].

Definition sampleState : G.t := G.with_images G.initial 4 4 sampleGrey sampleGrey.

(** A 10 x 10 drawing: a 3 x 3 black square centred at (4, 4) on white. *)
Definition squareGrey : list Z :=
  concat
    (map (λ p,
       if (3 <=? p mod 10) && (p mod 10 <=? 5) &&
          (3 <=? p / 10) && (p / 10 <=? 5)
       then black else white)
       (seqZ 0 100)).

(** A 2 x 2 drawing whose only foreground pixel is the first of the second
    row, its label array, and a catalog of one item anchored on the right
    edge of the first row. *)
Definition edgeGrey : list Z := concat [white; white; black; white].

Definition edgeState : G.t :=
  G.mk 2 2 edgeGrey edgeGrey [0; 0; 1; 0] 1 ∅ ∅ ∅ None [].

Definition edgeItems : list Item :=
  [mkItem "edge" "Edge" [(1, 0)%Q] "An anchor on the right edge."].

(** A 5 x 1 drawing of three components, a colour buffer for it whose
    first pixel is half transparent, a catalog of one item anchored in the
    first two components, and the same catalog with a second item, whose
    key is the empty string, anchored in the third. *)
Definition stripGrey : list Z := concat [black; white; black; white; black].

Definition stripColor : list Z :=
  [10; 20; 30; 128; 40; 50; 60; 255; 70; 80; 90; 255;
   100; 110; 120; 255; 130; 140; 150; 255].

Definition stripState : G.t :=
  G.mk 5 1 stripGrey stripColor [1; 0; 2; 0; 3] 3 ∅ ∅ ∅ None [].

Definition pairItems : list Item :=
  [mkItem "skis" "Skis" [(0, 0); (0.5, 0)]%Q "Two parts."].

Definition namelessItems : list Item :=
  pairItems ++ [mkItem "" "Nameless" [(0.9, 0)%Q] "An item without a key."].

Definition pairState : G.t := buildItemMappings_of pairItems stripState.

Definition namelessState : G.t := buildItemMappings_of namelessItems stripState.

(** A browser that scales by taking the nearest source pixel, with a
    2 x 2 grey image and a 1 x 1 colour image. *)
Definition nearest (img : Image) (w h : Z) : list Z :=
  concat
    (map (λ p,
       let sx := (p mod w) * naturalWidth img / w in
       let sy := (p / w) * naturalHeight img / h in
       let i := (sy * naturalWidth img + sx) * 4 in
       [channel (bitmap img) i; channel (bitmap img) (i + 1);
        channel (bitmap img) (i + 2); channel (bitmap img) (i + 3)])
       (seqZ 0 (w * h))).

Definition mismatchGrey : Image := mkImage 2 2 edgeGrey.
Definition mismatchColor : Image := mkImage 1 1 [200; 10; 10; 255].

Definition mismatchBrowser : Browser :=
  mkBrowser true true (Some mismatchGrey) (Some mismatchColor) false
    (λ img w h, Some (nearest img w h)) (λ _, true) true.


(** *** Vocabulary of the segmentation claims *)

Definition inGrid (W H p : Z) : Prop := 0 ≤ p < W * H.

(** Pixel positions [p] and [q] are 4-neighbours: one step apart along
    exactly one axis. *)
Definition adjacent4 (W H p q : Z) : Prop :=
  inGrid W H p ∧ inGrid W H q ∧
  Z.abs (p mod W - q mod W) + Z.abs (p / W - q / W) = 1.

(** A 4-connected path from [p] to [r] all of whose positions satisfy [P]. *)
Inductive path4 (W H : Z) (P : Z → Prop) : Z → Z → Prop :=
  | path4_here p : P p → path4 W H P p p
  | path4_step p q r :
      P p → adjacent4 W H p q → path4 W H P q r → path4 W H P p r.

(** A sequence of positions in which each is a 4-neighbour of the next. *)
Fixpoint chain4 (W H : Z) (ps : list Z) : Prop :=
  match ps with
  | a :: (b :: _) as tl => adjacent4 W H a b ∧ chain4 W H tl
  | _ => True
  end.

(** The label of position [p] is [L]. *)
Definition labelled (l : list Z) (p L : Z) : Prop := JS.get l p = Some L.

(** The first position, in row-major order, that carries label [k]. *)
Definition firstPixel (l : list Z) (k : Z) : option Z :=
  (λ r, Z.of_nat (fst r)) <$> list_find (λ x, x = k) l.

(** Positions [p] and [q] lie in one 4-connected component of the
    foreground of [data]: a sequence of foreground positions of the grid,
    each a 4-neighbour of the next, leads from [p] to [q]. *)
Definition joined (W H : Z) (data : list Z) (p q : Z) : Prop :=
  ∃ ps, head ps = Some p ∧ last ps = Some q ∧ chain4 W H ps ∧
        Forall (λ x, inGrid W H x ∧ foregroundAt data x = true) ps.

(** Position [s] is the first pixel, in row-major order, of its component
    of the foreground of [data]. *)
Definition componentFirst (W H : Z) (data : list Z) (s : Z) : Prop :=
  joined W H data s s ∧ ∀ q, joined W H data q s → s ≤ q.

(** The number of entries of the label array that are still 0. *)
Definition zeros (l : list Z) : nat := length (filter (λ x, x = 0) l).

(** What holds of the label array [l], the last label [cur] and the stack
    [st] once the scan has passed the positions below [n]. *)
Record SegInv (W H : Z) (data : list Z) (n cur : Z) (l st : list Z) : Prop := {
  inv_length : length l = Z.to_nat (W * H);
  inv_bounds : 0 ≤ cur ≤ n ∧ n ≤ W * H;
  inv_fg : ∀ p L, labelled l p L → L ≠ 0 →
             foregroundAt data p = true ∧ 1 ≤ L ≤ cur;
  inv_scanned : ∀ p, 0 ≤ p < n → foregroundAt data p = true →
             ∃ L, labelled l p L ∧ L ≠ 0;
  inv_closed : ∀ p q L, adjacent4 W H p q → labelled l p L → L ≠ 0 →
             foregroundAt data q = true → labelled l q L ∨ p ∈ st;
  inv_conn : ∀ p q L, labelled l p L → labelled l q L → L ≠ 0 →
             path4 W H (λ x, labelled l x L) p q;
  inv_stack : ∀ q, q ∈ st → labelled l q cur ∧ cur ≠ 0;
  inv_seed : ∀ k, 1 ≤ k ≤ cur → ∃ s, 0 ≤ s < n ∧ labelled l s k;
  inv_order : ∀ p L k, labelled l p L → 1 ≤ k < L →
             ∃ s, s < p ∧ labelled l s k
}.

(** What the neighbour loop, run over the neighbours [nbs] of the popped
    pixel [q] from state [s] to state [s'], keeps and achieves: the
    invariant with [q] counted as still on the stack, the number of
    unlabelled and stacked positions, the labels already given, and a
    label on every foreground neighbour. *)
Definition visited (W H : Z) (data : list Z) (n c q : Z) (s s' : Seg)
  (nbs : list (Z * Z)) : Prop :=
  SegInv W H data n c (ids s') (q :: stack s') ∧
  currentId s' = c ∧
  (zeros (ids s') + length (stack s') = zeros (ids s) + length (stack s))%nat ∧
  (∀ p L, L ≠ 0 → labelled (ids s) p L → labelled (ids s') p L) ∧
  (∀ nx ny, (nx, ny) ∈ nbs → 0 ≤ nx < W → 0 ≤ ny < H →
     foregroundAt data (idx W nx ny) = true →
     ∃ L, L ≠ 0 ∧ labelled (ids s') (idx W nx ny) L).

(** ** Modal (app.js, openModal, closeModal and the click listener) *)

(** What the script writes of the dialog: the text of [modalTitle] and of
    [modalBody], and whether [modal] carries the class [hidden]. *)
Record Modal := mkModal {
  modalTitle : string;
  modalBody : string;
  hidden : bool
}.

Definition openModal (g : G.t) (itemKey : string) (m : Modal) : Modal :=
  match G.itemKeyToInfo g !! itemKey with
  | None => m
  | Some (t, msg) => mkModal t msg false
  end.

Definition closeModal (m : Modal) : Modal :=
  mkModal (modalTitle m) (modalBody m) true.

(** What the click listener of the canvas does to the dialog:
    [if (itemKey) openModal(itemKey)]. *)
Definition onCanvasClick (rect : Rect) (cx cy : Q) (g : G.t) (m : Modal)
  : Modal :=
  let comp :=
    componentAtClientXY (G.W g) (G.H g) (G.compIdAt g) rect cx cy in
  match G.compToItemKey g !! comp with
  | Some k => if JS.truthy (Some k) then openModal g k m else m
  | None => m
  end.

(** *** Vocabulary of the further properties *)

(** The label set [buildItemMappings] computes for an item. *)
Definition labelsOf (g : G.t) (it : Item) : gset Z :=
  anchorSet (G.W g) (G.H g) (G.compIdAt g) (pts it).

(** The canvas shows what [redraw] would draw for the current state. *)
Definition synced (g : G.t) : Prop := G.canvas g = G.canvas (redraw g).

(** Two buffers hold the same red, green and blue for every pixel of a
    [W] x [H] image. *)
Definition sameColours (W H : Z) (data data' : list Z) : Prop :=
  ∀ p k, inGrid W H p → 0 ≤ k ≤ 2 →
    JS.get data (p * 4 + k) = JS.get data' (p * 4 + k).

(** * Proofs *)

(** ** Typed arrays *)

Section Arrays.
Context {A : Type}.
Implicit Types (a : list A) (i j : Z) (v : A).

Lemma get_Some_lt a i v :
  JS.get a i = Some v → 0 ≤ i < Z.of_nat (length a).
Proof.
  unfold JS.get. destruct (Z.ltb_spec i 0); [done|].
  intros Hl%lookup_lt_Some. lia.
Qed.

Lemma get_is_Some a i :
  0 ≤ i < Z.of_nat (length a) → is_Some (JS.get a i).
Proof.
  intros Hi. unfold JS.get. destruct (Z.ltb_spec i 0); [lia|].
  apply lookup_lt_is_Some. lia.
Qed.

Lemma get_None_ge a i :
  Z.of_nat (length a) ≤ i → JS.get a i = None.
Proof.
  intros Hi. unfold JS.get. destruct (Z.ltb_spec i 0); [done|].
  apply lookup_ge_None. lia.
Qed.

Lemma length_set a i v : length (JS.set a i v) = length a.
Proof. unfold JS.set. destruct (i <? 0); [done|]. apply length_insert. Qed.

Lemma get_set_eq a i v :
  0 ≤ i < Z.of_nat (length a) → JS.get (JS.set a i v) i = Some v.
Proof.
  intros Hi. unfold JS.get, JS.set. destruct (Z.ltb_spec i 0); [lia|].
  apply list_lookup_insert_eq. lia.
Qed.

Lemma get_set_ne a i j v : i ≠ j → JS.get (JS.set a i v) j = JS.get a j.
Proof.
  intros Hij. unfold JS.get, JS.set.
  destruct (Z.ltb_spec j 0); [done|].
  destruct (Z.ltb_spec i 0); [done|].
  apply list_lookup_insert_ne. lia.
Qed.

Lemma set_same a i v : JS.get a i = Some v → JS.set a i v = a.
Proof.
  unfold JS.get, JS.set. destruct (i <? 0); [done|]. apply list_insert_id.
Qed.

End Arrays.

Lemma to_uint32_small z : 0 ≤ z < 2 ^ 32 → JS.to_uint32 z = z.
Proof. intros Hz. unfold JS.to_uint32. apply Z.mod_small, Hz. Qed.

Lemma to_int32_small z : 0 ≤ z < 2 ^ 31 → JS.to_int32 z = z.
Proof.
  intros Hz. unfold JS.to_int32.
  rewrite Z.mod_small by lia.
  destruct (Z.ltb_spec z (2 ^ 31)); [done|lia].
Qed.

Lemma for_range_opt_ind {St} (I : Z → St → Prop) (body : Z → St → option St)
  (stop : Z) :
  (∀ i s, 0 ≤ i < stop → I i s → ∃ s', body i s = Some s' ∧ I (i + 1) s') →
  ∀ n i s, 0 ≤ i → i + Z.of_nat n = stop → I i s →
  ∃ s', JS.for_range_opt n i body s = Some s' ∧ I stop s'.
Proof.
  intros Hbody n. induction n as [|n IH]; intros i s Hi Hn HI; cbn.
  - exists s. split; [done|]. by replace stop with i by lia.
  - destruct (Hbody i s) as (s1 & -> & HI1); [lia|done|].
    apply IH; [lia|lia|done].
Qed.

(** ** Foreground classifier *)
(** The comparison of the mean against 245 is a comparison of the sum
    against 735. *)
Lemma brightness_lt r g b : (brightness r g b < 245)%Q ↔ r + g + b < 735.
Proof.
  unfold brightness, Qdiv, Qlt, Qmult, Qinv, inject_Z; cbn.
  lia.
Qed.

Lemma isForeground_sum r g b :
  isForeground r g b =
  negb ((r >? 245) && (g >? 245) && (b >? 245)) && (r + g + b <? 735).
Proof.
  unfold isForeground.
  destruct ((r >? 245) && (g >? 245) && (b >? 245)); [done|].
  destruct (Qlt_le_dec _ _) as [Hlt|Hle]; cbn; symmetry.
  - apply Z.ltb_lt, brightness_lt, Hlt.
  - apply Z.ltb_ge. apply Qle_not_lt in Hle.
    rewrite brightness_lt in Hle. lia.
Qed.



(** ** Label arrays *)

Lemma labelled_set l r c p L :
  labelled l r 0 →
  labelled (JS.set l r c) p L ↔ (p = r ∧ L = c) ∨ (p ≠ r ∧ labelled l p L).
Proof.
  intros Hr. unfold labelled in *. destruct (decide (p = r)) as [->|Hne].
  - rewrite get_set_eq by (eapply get_Some_lt, Hr). naive_solver.
  - rewrite get_set_ne by done. naive_solver.
Qed.

Lemma zeros_insert (l : list Z) (i : nat) (c : Z) :
  l !! i = Some 0 → c ≠ 0 → S (zeros (<[i:=c]> l)) = zeros l.
Proof.
  unfold zeros. revert i. induction l as [|x l IH]; intros [|i] Hi Hc; try done.
  - injection Hi as ->. change (<[0%nat:=c]> (0 :: l)) with (c :: l).
    rewrite filter_cons_False by done. by rewrite filter_cons_True by done.
  - change (<[S i:=c]> (x :: l)) with (x :: <[i:=c]> l).
    change ((x :: l) !! S i) with (l !! i) in Hi.
    destruct (decide (x = 0)).
    + rewrite !filter_cons_True by done. cbn. f_equal. by apply IH.
    + rewrite !filter_cons_False by done. by apply IH.
Qed.

Lemma zeros_set l r c :
  labelled l r 0 → c ≠ 0 → S (zeros (JS.set l r c)) = zeros l.
Proof.
  unfold labelled, JS.get, JS.set. destruct (r <? 0); [done|].
  apply zeros_insert.
Qed.

Lemma zeros_le l : (zeros l ≤ length l)%nat.
Proof. apply length_filter. Qed.

Lemma seg_eta s : mkSeg (ids s) (currentId s) (stack s) = s.
Proof. by destruct s. Qed.


(** ** The pixel grid *)

Section Grid.
Variables W H : Z.
Hypothesis HW : 0 ≤ W.
Hypothesis HH : 0 ≤ H.
Hypothesis Hsize : W * H < 2 ^ 31.


Lemma inGrid_pos p : inGrid W H p → 0 < W ∧ 0 < H.
Proof. unfold inGrid. nia. Qed.

Lemma inGrid_coords p : inGrid W H p → 0 ≤ p mod W < W ∧ 0 ≤ p / W < H.
Proof.
  intros Hp. destruct (inGrid_pos p Hp) as [HW0 HH0].
  unfold inGrid in Hp. split.
  - apply Z.mod_pos_bound, HW0.
  - split; [apply Z.div_pos; lia|].
    apply Z.div_lt_upper_bound; lia.
Qed.

Lemma idx_coords x y :
  0 ≤ x < W → 0 ≤ y < H →
  inGrid W H (idx W x y) ∧ idx W x y mod W = x ∧ idx W x y / W = y.
Proof.
  intros Hx Hy. unfold idx, inGrid. split; [nia|]. split.
  - rewrite Z.add_comm, Z_mod_plus_full. apply Z.mod_small, Hx.
  - rewrite Z.add_comm, Z_div_plus_full by lia.
    rewrite Z.div_small by lia. lia.
Qed.

Lemma idx_of_coords p : inGrid W H p → idx W (p mod W) (p / W) = p.
Proof.
  intros Hp. destruct (inGrid_pos p Hp) as [HW0 _]. unfold idx.
  rewrite (Z.div_mod p W) at 3 by lia. lia.
Qed.

Lemma adjacent4_sym p q : adjacent4 W H p q → adjacent4 W H q p.
Proof.
  unfold adjacent4. intros (Hp & Hq & Hd). split; [done|]. split; [done|]. lia.
Qed.

Lemma adjacent4_irrefl p : ¬ adjacent4 W H p p.
Proof. unfold adjacent4. intros (_&_&Hd). rewrite !Z.sub_diag in Hd. done. Qed.

(** On a position of the grid the remainder and the truncated quotient of
    the source are the column and the row. *)
Lemma neighbours_coords q :
  inGrid W H q →
  neighbours W q =
  [(q mod W - 1, q / W); (q mod W + 1, q / W);
   (q mod W, q / W - 1); (q mod W, q / W + 1)].
Proof.
  intros Hq. destruct (inGrid_pos q Hq) as [HW0 HH0].
  destruct (inGrid_coords q Hq) as [Hc Hr].
  unfold neighbours.
  rewrite Z.rem_mod_nonneg, Z.quot_div_nonneg by (unfold inGrid in Hq; lia).
  rewrite to_int32_small; [done|]. nia.
Qed.

(** Each neighbour that passes the bounds test of the source is a
    4-neighbour of [q]. *)
Lemma neighbours_sound q nx ny :
  inGrid W H q → (nx, ny) ∈ neighbours W q →
  0 ≤ nx < W → 0 ≤ ny < H →
  adjacent4 W H q (idx W nx ny).
Proof.
  intros Hq Hin Hx Hy.
  destruct (idx_coords nx ny Hx Hy) as (Hg & Hm & Hd).
  unfold adjacent4. split; [done|]. split; [done|].
  rewrite Hm, Hd. rewrite (neighbours_coords q Hq) in Hin.
  repeat (apply elem_of_cons in Hin as [Hin|Hin];
          [injection Hin as -> ->; lia|]).
  by apply elem_of_nil in Hin.
Qed.

(** Each 4-neighbour of [q] is among the four the source visits, and passes
    its bounds test. *)
Lemma neighbours_complete q r :
  adjacent4 W H q r →
  ∃ nx ny, (nx, ny) ∈ neighbours W q ∧ 0 ≤ nx < W ∧ 0 ≤ ny < H ∧
           idx W nx ny = r.
Proof.
  intros (Hq & Hr & Hd).
  destruct (inGrid_coords r Hr) as [Hc Hrow].
  exists (r mod W), (r / W).
  split; [|split; [done|split; [done|by apply idx_of_coords]]].
  rewrite (neighbours_coords q Hq).
  assert ((r mod W = q mod W - 1 ∧ r / W = q / W) ∨
          (r mod W = q mod W + 1 ∧ r / W = q / W) ∨
          (r mod W = q mod W ∧ r / W = q / W - 1) ∨
          (r mod W = q mod W ∧ r / W = q / W + 1)) as Hcases by lia.
  destruct Hcases as [[E1 E2]|[[E1 E2]|[[E1 E2]|[E1 E2]]]];
    rewrite E1, E2; set_solver.
Qed.

(** *** Paths *)

Lemma path4_mono (P Q : Z → Prop) p q :
  (∀ x, P x → Q x) → path4 W H P p q → path4 W H Q p q.
Proof.
  intros HPQ Hp. induction Hp as [p Hp|p q r Hp Hadj _ IH].
  - apply path4_here, HPQ, Hp.
  - eapply path4_step; [apply HPQ, Hp|apply Hadj|apply IH].
Qed.

Lemma path4_trans (P : Z → Prop) p q r :
  path4 W H P p q → path4 W H P q r → path4 W H P p r.
Proof.
  intros Hpq Hqr. induction Hpq as [p Hp|p q' q Hp Hadj _ IH]; [done|].
  eapply path4_step; [apply Hp|apply Hadj|apply IH, Hqr].
Qed.

Lemma path4_start (P : Z → Prop) p q : path4 W H P p q → P p.
Proof. by intros [p' Hp|p' q' r' Hp _ _]. Qed.

Lemma path4_end (P : Z → Prop) p q : path4 W H P p q → P q.
Proof. intros Hp. induction Hp; done. Qed.

Lemma path4_snoc (P : Z → Prop) p q r :
  path4 W H P p q → adjacent4 W H q r → P r → path4 W H P p r.
Proof.
  intros Hpq Hadj Hr. eapply path4_trans; [apply Hpq|].
  eapply path4_step; [eapply path4_end, Hpq|apply Hadj|apply path4_here, Hr].
Qed.

Lemma path4_sym (P : Z → Prop) p q : path4 W H P p q → path4 W H P q p.
Proof.
  intros Hpq. induction Hpq as [p Hp|p q r Hp Hadj _ IH].
  - by apply path4_here.
  - eapply path4_snoc; [apply IH|by apply adjacent4_sym|done].
Qed.

(** ** Segmentation *)

Section Segmentation.
Variable data : list Z.

Lemma labelled_inGrid n cur l st p L :
  SegInv W H data n cur l st → labelled l p L → inGrid W H p.
Proof.
  intros Hinv Hp%get_Some_lt. rewrite (inv_length _ _ _ _ _ _ _ Hinv) in Hp.
  unfold inGrid. lia.
Qed.

Lemma inGrid_labelled n cur l st p :
  SegInv W H data n cur l st → inGrid W H p → ∃ L, labelled l p L.
Proof.
  intros Hinv Hp. apply get_is_Some.
  rewrite (inv_length _ _ _ _ _ _ _ Hinv). unfold inGrid in Hp. lia.
Qed.

(** The array the source allocates satisfies the invariant before the
    first position is scanned. *)
Lemma SegInv_init :
  SegInv W H data 0 0 (replicate (Z.to_nat (W * H)) 0) [].
Proof.
  assert (∀ p L, labelled (replicate (Z.to_nat (W * H)) 0) p L → L = 0) as Hz.
  { unfold labelled, JS.get. intros p L. destruct (p <? 0); [done|].
    by intros [-> _]%lookup_replicate. }
  split.
  - apply length_replicate.
  - nia.
  - intros p L HL%Hz. done.
  - lia.
  - intros p q L _ HL%Hz. done.
  - intros p q L HL%Hz. done.
  - intros q Hq. by apply elem_of_nil in Hq.
  - lia.
  - intros p L k HL%Hz. lia.
Qed.

(** Moving past a position that needs no label. *)
Lemma SegInv_skip n cur l :
  SegInv W H data n cur l [] → n < W * H →
  (∀ L, labelled l n L → L = 0 → foregroundAt data n ≠ true) →
  SegInv W H data (n + 1) cur l [].
Proof.
  intros Hinv Hn Hskip. destruct Hinv as [Hlen Hb Hfg Hsc Hcl Hco Hst Hse Hor].
  split; try done.
  - lia.
  - intros p Hp Hfgp. destruct (decide (p = n)) as [->|Hne].
    + destruct (get_is_Some l n) as [L HL]; [rewrite Hlen; lia|].
      exists L. split; [done|]. intros ->. by apply (Hskip 0).
    + apply Hsc; [lia|done].
  - intros k Hk. destruct (Hse k Hk) as (s & Hs & HL). exists s. split; [lia|done].
Qed.

(** Starting a component at the position the scan has reached. *)
Lemma SegInv_seed n cur l :
  SegInv W H data n cur l [] → labelled l n 0 → foregroundAt data n = true →
  SegInv W H data (n + 1) (cur + 1) (JS.set l n (cur + 1)) [n].
Proof.
  intros Hinv Hn0 Hfgn. pose proof (labelled_inGrid _ _ _ _ _ _ Hinv Hn0) as Hgn.
  destruct Hinv as [Hlen Hb Hfg Hsc Hcl Hco Hst Hse Hor].
  unfold inGrid in Hgn.
  pose proof (λ p L, proj1 (labelled_set l n (cur + 1) p L Hn0)) as Hset.
  assert (labelled (JS.set l n (cur + 1)) n (cur + 1)) as Hnew.
  { apply labelled_set; [done|]. by left. }
  assert (∀ p L, L ≠ 0 → labelled l p L → labelled (JS.set l n (cur + 1)) p L)
    as Hkeep.
  { intros p L HL Hp. apply labelled_set; [done|]. right. split; [|done].
    intros ->. unfold labelled in *. congruence. }
  split.
  - by rewrite length_set.
  - lia.
  - intros p L [[-> ->]|[Hne Hp]]%Hset HL.
    + split; [done|lia].
    + destruct (Hfg p L Hp HL). split; [done|lia].
  - intros p Hp Hfgp. destruct (decide (p = n)) as [->|Hne].
    + exists (cur + 1). split; [done|lia].
    + destruct (Hsc p) as (L & HL & HL0); [lia|done|].
      exists L. split; [|done]. by apply Hkeep.
  - intros p q L Hadj [[-> ->]|[Hne Hp]]%Hset HL Hfgq.
    + right. set_solver.
    + left. destruct (Hcl p q L Hadj Hp HL Hfgq) as [Hq|Hin].
      * by apply Hkeep.
      * by apply elem_of_nil in Hin.
  - intros p q L [[-> ->]|[Hnp Hp]]%Hset Hq' HL.
    + apply Hset in Hq' as [[-> _]|[Hnq Hq]]; [by apply path4_here|].
      destruct (Hfg q (cur + 1) Hq HL). lia.
    + apply Hset in Hq' as [[-> ->]|[Hnq Hq]].
      * destruct (Hfg p (cur + 1) Hp HL). lia.
      * eapply path4_mono; [|by apply Hco]. intros x. by apply Hkeep.
  - intros q ->%list_elem_of_singleton. split; [done|lia].
  - intros k Hk. destruct (decide (k = cur + 1)) as [->|Hne].
    + exists n. split; [lia|done].
    + destruct (Hse k) as (s & Hs & HL); [lia|].
      exists s. split; [lia|]. apply Hkeep; [lia|done].
  - intros p L k [[-> ->]|[Hne Hp]]%Hset Hk.
    + destruct (Hse k) as (s & Hs & HL); [lia|].
      exists s. split; [lia|]. apply Hkeep; [lia|done].
    + destruct (Hor p L k Hp Hk) as (s & Hs & HL).
      exists s. split; [done|]. apply Hkeep; [lia|done].
Qed.

(** Giving the current label to an unlabelled foreground neighbour [r] of
    a pixel [q] that carries it, and pushing [r]. *)
Lemma SegInv_grow n c l st q r :
  SegInv W H data n c l (q :: st) → labelled l q c → adjacent4 W H q r →
  labelled l r 0 → foregroundAt data r = true →
  SegInv W H data n c (JS.set l r c) (q :: r :: st).
Proof.
  intros Hinv Hq Hadj Hr0 Hfgr.
  destruct Hinv as [Hlen Hb Hfg Hsc Hcl Hco Hst Hse Hor].
  destruct (Hst q) as [_ Hc0]; [set_solver|].
  assert (n ≤ r) as Hnr.
  { destruct (Z.le_gt_cases n r) as [|Hlt]; [done|].
    destruct (Hsc r) as (L & HL & HL0); [|done|].
    - apply get_Some_lt in Hr0. lia.
    - unfold labelled in *. congruence. }
  pose proof (λ p L, proj1 (labelled_set l r c p L Hr0)) as Hset.
  assert (labelled (JS.set l r c) r c) as Hnew.
  { apply labelled_set; [done|]. by left. }
  assert (∀ p L, L ≠ 0 → labelled l p L → labelled (JS.set l r c) p L)
    as Hkeep.
  { intros p L HL Hp. apply labelled_set; [done|]. right. split; [|done].
    intros ->. unfold labelled in *. congruence. }
  assert (path4 W H (λ x, labelled (JS.set l r c) x c) q r) as Hqr.
  { eapply path4_step; [by apply Hkeep|apply Hadj|by apply path4_here]. }
  assert (∀ p, labelled l p c →
            path4 W H (λ x, labelled (JS.set l r c) x c) p r) as Hpr.
  { intros p Hp. eapply path4_trans; [|apply Hqr].
    eapply path4_mono; [|by apply (Hco p q c)]. intros x. by apply Hkeep. }
  split.
  - by rewrite length_set.
  - done.
  - intros p L [[-> ->]|[Hne Hp]]%Hset HL.
    + split; [done|lia].
    + by apply Hfg.
  - intros p Hp Hfgp. destruct (Hsc p Hp Hfgp) as (L & HL & HL0).
    exists L. split; [|done]. by apply Hkeep.
  - intros a b L Hab [[-> ->]|[Hne Ha]]%Hset HL Hfgb.
    + right. set_solver.
    + destruct (Hcl a b L Hab Ha HL Hfgb) as [Hbl|Hin].
      * left. by apply Hkeep.
      * right. set_solver.
  - intros a b L [[-> ->]|[Hna Ha]]%Hset Hb' HL.
    + apply Hset in Hb' as [[-> _]|[Hnb Hb']]; [by apply path4_here|].
      apply path4_sym. by apply Hpr.
    + apply Hset in Hb' as [[-> ->]|[Hnb Hb']]; [by apply Hpr|].
      eapply path4_mono; [|by apply Hco]. intros x. by apply Hkeep.
  - intros x Hx. split; [|done].
    apply elem_of_cons in Hx as [->|Hx]; [by apply Hkeep|].
    apply elem_of_cons in Hx as [->|Hx]; [done|].
    apply Hkeep; [done|]. apply Hst. set_solver.
  - intros k Hk. destruct (Hse k Hk) as (s & Hs & HL).
    exists s. split; [done|]. apply Hkeep; [lia|done].
  - intros p L k [[-> ->]|[Hne Hp]]%Hset Hk.
    + destruct (Hse k) as (s & Hs & HL); [lia|].
      exists s. split; [lia|]. apply Hkeep; [lia|done].
    + destruct (Hor p L k Hp Hk) as (s & Hs & HL).
      exists s. split; [done|]. apply Hkeep; [lia|done].
Qed.

(** Once every foreground neighbour of the popped pixel [q] has a label,
    [q] is no longer needed on the stack. *)
Lemma SegInv_pop n c l st q :
  SegInv W H data n c l (q :: st) →
  (∀ r, adjacent4 W H q r → foregroundAt data r = true → ∃ L, L ≠ 0 ∧ labelled l r L) →
  SegInv W H data n c l st.
Proof.
  intros Hinv Hnb. destruct Hinv as [Hlen Hb Hfg Hsc Hcl Hco Hst Hse Hor].
  split; try done.
  - intros a b L Hab Ha HL Hfgb.
    destruct (Hcl a b L Hab Ha HL Hfgb) as [Hbl|Hin]; [by left|].
    apply elem_of_cons in Hin as [->|Hin]; [|by right]. left.
    destruct (Hnb b Hab Hfgb) as (L' & HL' & Hb').
    destruct (Hfg q L Ha HL) as [Hfgq _].
    destruct (Hst q) as [Hqc _]; [set_solver|].
    assert (L = c) as -> by (unfold labelled in *; congruence).
    destruct (Hcl b q L' (adjacent4_sym _ _ Hab) Hb' HL' Hfgq) as [Hq'|Hin].
    + assert (L' = c) as -> by (unfold labelled in *; congruence). done.
    + by destruct (Hst b Hin).
  - intros x Hx. apply Hst. set_solver.
Qed.

Lemma bounds_test nx ny :
  (nx <? 0) || (nx >=? W) || (ny <? 0) || (ny >=? H) = false ↔
  0 ≤ nx < W ∧ 0 ≤ ny < H.
Proof.
  rewrite !orb_false_iff, !Z.ltb_ge, !Z.geb_leb, !Z.leb_gt. lia.
Qed.

Lemma visited_same n c q s nbs :
  SegInv W H data n c (ids s) (q :: stack s) → currentId s = c →
  (∀ nx ny, (nx, ny) ∈ nbs → 0 ≤ nx < W → 0 ≤ ny < H →
     foregroundAt data (idx W nx ny) = true → ∃ L, L ≠ 0 ∧ labelled (ids s) (idx W nx ny) L) →
  visited W H data n c q s s nbs.
Proof.
  intros Hinv Hc Hnbs. unfold visited.
  split; [done|]. split; [done|]. split; [done|]. split; done.
Qed.

Lemma visit_inv n c q s nb :
  SegInv W H data n c (ids s) (q :: stack s) → currentId s = c →
  nb ∈ neighbours W q →
  visited W H data n c q s (visit W H data s nb) [nb].
Proof.
  intros Hinv Hc Hnb. destruct nb as [nx ny]. unfold visit.
  destruct ((nx <? 0) || (nx >=? W) || (ny <? 0) || (ny >=? H)) eqn:Hb.
  { apply visited_same; [done..|].
    intros ? ? [= -> ->]%list_elem_of_singleton Hx Hy.
    pose proof (proj2 (bounds_test nx ny) (conj Hx Hy)). congruence. }
  apply bounds_test in Hb as [Hx Hy].
  destruct (idx_coords nx ny Hx Hy) as (Hg & _).
  destruct (inGrid_labelled _ _ _ _ _ Hinv Hg) as (L & HL).
  pose proof HL as Hget. unfold labelled in Hget. rewrite Hget.
  destruct (decide (L = 0)) as [->|HL0].
  - destruct (foregroundAt data (idx W nx ny)) eqn:Hfgn; cbn [negb].
    + destruct (inv_stack _ _ _ _ _ _ _ Hinv q) as [Hq Hc0]; [set_solver|].
      pose proof (inv_bounds _ _ _ _ _ _ _ Hinv) as Hbd.
      rewrite Hc, to_uint32_small by lia.
      assert (adjacent4 W H q (idx W nx ny)) as Hadj.
      { apply neighbours_sound; [|done..]. eapply labelled_inGrid; done. }
      pose proof (SegInv_grow _ _ _ _ _ _ Hinv Hq Hadj HL Hfgn) as Hinv'.
      pose proof (zeros_set _ _ c HL Hc0) as Hz.
      split; [done|]. split; [done|]. split; [cbn [ids stack length]; lia|]. split.
      * intros p L HL1 Hp. apply labelled_set; [done|]. right. split; [|done].
        intros ->. unfold labelled in *. congruence.
      * intros ? ? [= -> ->]%list_elem_of_singleton _ _ _. exists c.
        split; [done|]. apply labelled_set; [done|]. by left.
    + rewrite set_same, seg_eta by done. apply visited_same; [done..|].
      intros ? ? [= -> ->]%list_elem_of_singleton _ _ Hf.
      congruence.
  - assert (visited W H data n c q s s [(nx, ny)]) as Hsame.
    { apply visited_same; [done..|].
      intros ? ? [= -> ->]%list_elem_of_singleton _ _ _. by exists L. }
    by destruct L.
Qed.

Lemma visits_inv n c q nbs :
  (∀ nb, nb ∈ nbs → nb ∈ neighbours W q) →
  ∀ s, SegInv W H data n c (ids s) (q :: stack s) → currentId s = c →
  visited W H data n c q s (fold_left (visit W H data) nbs s) nbs.
Proof.
  induction nbs as [|nb nbs IH]; intros Hsub s Hinv Hc.
  { apply visited_same; [done..|]. intros ? ? Hin. by apply elem_of_nil in Hin. }
  cbn [fold_left].
  destruct (visit_inv n c q s nb Hinv Hc) as (Hinv1 & Hc1 & Hz1 & Hk1 & Hl1);
    [apply Hsub; set_solver|].
  destruct (IH (λ x Hx, Hsub x (list_elem_of_further _ _ _ Hx)) _ Hinv1 Hc1)
    as (Hinv2 & Hc2 & Hz2 & Hk2 & Hl2).
  split; [done|]. split; [done|]. split; [lia|]. split.
  - intros p L HL Hp. by apply Hk2, Hk1.
  - intros nx ny [Heq|Hin]%elem_of_cons Hx Hy Hf.
    + subst nb. destruct (Hl1 nx ny) as (L & HL0 & HL); [set_solver|done..|].
      exists L. split; [done|]. by apply Hk2.
    + by apply Hl2.
Qed.

(** The [while] loop ends with an empty stack when it is given one unit
    of fuel for every pixel that is unlabelled or on the stack. *)
Lemma flood_inv n c fuel :
  ∀ s, SegInv W H data n c (ids s) (stack s) → currentId s = c →
  (zeros (ids s) + length (stack s) ≤ fuel)%nat →
  ∃ s', flood fuel W H data s = Some s' ∧
        SegInv W H data n c (ids s') [] ∧ currentId s' = c ∧ stack s' = [].
Proof.
  induction fuel as [|fuel IH]; intros [l c' st] Hinv Hc Hfuel;
    cbn [ids currentId stack] in *; subst c'.
  - destruct st as [|q rest]; [|cbn [length] in Hfuel; lia].
    exists (mkSeg l c []). by cbn.
  - destruct st as [|q rest]; [exists (mkSeg l c []); by cbn|].
    cbn [flood stack ids currentId].
    set (s1 := mkSeg l c rest).
    destruct (visits_inv n c q (neighbours W q) (λ _ Hx, Hx) s1 Hinv eq_refl)
      as (Hinv2 & Hc2 & Hz2 & Hk2 & Hl2).
    change (zeros (ids s1) + length (stack s1))%nat
      with (zeros l + length rest)%nat in Hz2.
    cbn [length] in Hfuel.
    apply IH; [|done|lia].
    eapply SegInv_pop; [apply Hinv2|].
    intros r Hadj Hfr.
    destruct (neighbours_complete q r Hadj) as (nx & ny & Hin & Hx & Hy & <-).
    by apply Hl2.
Qed.

(** The body of the inner scan loop moves the invariant one position on. *)
Lemma scanPixel_inv fuel y x s :
  W * H ≤ Z.of_nat fuel → 0 ≤ x < W → 0 ≤ y < H →
  SegInv W H data (idx W x y) (currentId s) (ids s) [] → stack s = [] →
  ∃ s', scanPixel fuel W H data y x s = Some s' ∧
        SegInv W H data (idx W x y + 1) (currentId s') (ids s') [] ∧
        stack s' = [].
Proof.
  intros Hfuel Hx Hy Hinv Hst. unfold scanPixel.
  destruct (idx_coords x y Hx Hy) as (Hg & _).
  destruct (inGrid_labelled _ _ _ _ _ Hinv Hg) as (L & HL).
  pose proof HL as Hget. unfold labelled in Hget. rewrite Hget.
  assert (idx W x y < W * H) as Hlt by (unfold inGrid in Hg; lia).
  destruct (decide (L = 0)) as [->|HL0].
  - destruct (foregroundAt data (idx W x y)) eqn:Hfgp; cbn [negb].
    + pose proof (inv_bounds _ _ _ _ _ _ _ Hinv) as Hbd.
      rewrite to_uint32_small, Hst by lia.
      pose proof (SegInv_seed _ _ _ Hinv HL Hfgp) as Hinv'.
      pose proof (zeros_set _ _ (currentId s + 1) HL ltac:(lia)) as Hz.
      pose proof (zeros_le (ids s)) as Hzl.
      rewrite (inv_length _ _ _ _ _ _ _ Hinv) in Hzl.
      destruct (flood_inv (idx W x y + 1) (currentId s + 1) fuel
                  (mkSeg (JS.set (ids s) (idx W x y) (currentId s + 1))
                         (currentId s + 1) [idx W x y]))
        as (s' & Hfl & Hinv2 & Hc2 & Hst2);
        [done|done|cbn [ids stack length]; lia|].
      exists s'. rewrite Hc2. done.
    + rewrite set_same, seg_eta by done. exists s. split; [done|]. split; [|done].
      apply SegInv_skip; [done..|]. intros L' HL' _ Hf. congruence.
  - assert (∃ s', Some s = Some s' ∧
        SegInv W H data (idx W x y + 1) (currentId s') (ids s') [] ∧
        stack s' = []) as Hsame.
    { exists s. split; [done|]. split; [|done].
      apply SegInv_skip; [done..|]. intros L' HL' ->. unfold labelled in *.
      congruence. }
    by destruct L.
Qed.

Lemma scanRow_inv fuel y s :
  W * H ≤ Z.of_nat fuel → 0 ≤ y < H →
  SegInv W H data (y * W) (currentId s) (ids s) [] → stack s = [] →
  ∃ s', scanRow fuel W H data y s = Some s' ∧
        SegInv W H data ((y + 1) * W) (currentId s') (ids s') [] ∧
        stack s' = [].
Proof.
  intros Hfuel Hy Hinv Hst. unfold scanRow.
  replace ((y + 1) * W) with (idx W W y) by (unfold idx; lia).
  apply (for_range_opt_ind
    (λ x s, SegInv W H data (idx W x y) (currentId s) (ids s) [] ∧ stack s = [])
    (scanPixel fuel W H data y) W) with (n := Z.to_nat W) (i := 0).
  - intros x s0 Hx [Hinv0 Hst0].
    destruct (scanPixel_inv fuel y x s0 Hfuel Hx Hy Hinv0 Hst0)
      as (s' & Hs' & Hinv' & Hst').
    exists s'. split; [done|]. split; [|done].
    by replace (idx W (x + 1) y) with (idx W x y + 1) by (unfold idx; lia).
  - lia.
  - lia.
  - split; [|done]. by replace (idx W 0 y) with (y * W) by (unfold idx; lia).
Qed.

Lemma scan_inv fuel s :
  W * H ≤ Z.of_nat fuel →
  SegInv W H data 0 (currentId s) (ids s) [] → stack s = [] →
  ∃ s', scan fuel W H data s = Some s' ∧
        SegInv W H data (W * H) (currentId s') (ids s') [] ∧ stack s' = [].
Proof.
  intros Hfuel Hinv Hst. unfold scan.
  rewrite (Z.mul_comm W H).
  apply (for_range_opt_ind
    (λ y s, SegInv W H data (y * W) (currentId s) (ids s) [] ∧ stack s = [])
    (scanRow fuel W H data) H) with (n := Z.to_nat H) (i := 0).
  - intros y s0 Hy [Hinv0 Hst0]. by apply scanRow_inv.
  - lia.
  - lia.
  - done.
Qed.

(** The segmentation returns, and its result satisfies the invariant with
    every position scanned and nothing left on the stack. *)
Lemma segment_inv fuel :
  W * H ≤ Z.of_nat fuel →
  ∃ l n, segment fuel W H data = Some (l, n) ∧
         SegInv W H data (W * H) n l [].
Proof.
  intros Hfuel. unfold segment.
  destruct (scan_inv fuel (mkSeg (replicate (Z.to_nat (W * H)) 0) 0 []))
    as (s & -> & Hinv & _); [done|apply SegInv_init|done|].
  by exists (ids s), (currentId s).
Qed.

End Segmentation.
End Grid.

(** *** The label array of [buildComponentMap] *)

Lemma labelled_fun l p L L' : labelled l p L → labelled l p L' → L = L'.
Proof. unfold labelled. congruence. Qed.

Lemma firstPixel_Some l k s :
  firstPixel l k = Some s ↔
  labelled l s k ∧ ∀ p, labelled l p k → s ≤ p.
Proof.
  unfold firstPixel, labelled. split.
  - intros Hf. apply fmap_Some in Hf as ([i x] & Hf & ->).
    apply list_find_Some in Hf as (Hi & -> & Hmin). cbn [fst]. split.
    + unfold JS.get. destruct (Z.ltb_spec (Z.of_nat i) 0); [lia|].
      by rewrite Nat2Z.id.
    + intros p Hp. pose proof (get_Some_lt _ _ _ Hp) as Hlt.
      unfold JS.get in Hp. destruct (Z.ltb_spec p 0); [done|].
      destruct (Z.le_gt_cases (Z.of_nat i) p) as [|Hgt]; [done|].
      destruct (Hmin (Z.to_nat p) k Hp); [lia|done].
  - intros [Hs Hmin]. pose proof (get_Some_lt _ _ _ Hs) as Hlt.
    unfold JS.get in Hs. destruct (Z.ltb_spec s 0); [done|].
    apply fmap_Some. exists (Z.to_nat s, k). split; [|cbn [fst]; lia].
    apply list_find_Some. split; [done|]. split; [done|].
    intros j y Hj Hlt' ->.
    assert (s ≤ Z.of_nat j); [|lia]. apply Hmin.
    unfold JS.get. destruct (Z.ltb_spec (Z.of_nat j) 0); [lia|].
    by rewrite Nat2Z.id.
Qed.

Lemma firstPixel_is_Some l k p :
  labelled l p k → ∃ s, firstPixel l k = Some s ∧ s ≤ p.
Proof.
  intros Hp. pose proof Hp as Hget. unfold labelled, JS.get in Hget.
  destruct (Z.ltb_spec p 0); [done|].
  destruct (list_find_elem_of (λ x, x = k) l k) as [[i x] Hf];
    [by eapply list_elem_of_lookup_2|done|].
  exists (Z.of_nat i). split; [unfold firstPixel; by rewrite Hf|].
  assert (firstPixel l k = Some (Z.of_nat i)) as Hfp
    by (unfold firstPixel; by rewrite Hf).
  apply firstPixel_Some in Hfp as [_ Hmin]. by apply Hmin.
Qed.

Lemma path4_chain W H (P : Z → Prop) p q :
  path4 W H P p q →
  ∃ ps, head ps = Some p ∧ last ps = Some q ∧ chain4 W H ps ∧ Forall P ps.
Proof.
  intros Hp. induction Hp as [p Hp|p q r Hp Hadj _ (ps & Hh & Hl & Hc & Hall)].
  - exists [p]. split; [done|]. split; [done|]. split; [done|].
    by apply Forall_singleton.
  - exists (p :: ps). destruct ps as [|q' ps]; [done|].
    injection Hh as ->. split; [done|]. split; [done|]. split.
    + by split.
    + by apply Forall_cons.
Qed.

(** What the claims about [buildComponentMap] are read off: the call
    returns, leaves the image size alone and stores a label array and a
    count that satisfy the invariant of the completed scan. *)
Lemma buildComponentMap_inv (g : G.t) (data : list Z) :
  0 ≤ G.W g → 0 ≤ G.H g → G.W g * G.H g < 2 ^ 31 →
  ∃ l n, buildComponentMap g data = Some (G.with_segmentation g l n) ∧
         SegInv (G.W g) (G.H g) data (G.W g * G.H g) n l [].
Proof.
  intros HW HH Hsize. unfold buildComponentMap, buildComponentMap_fuel.
  destruct (segment_inv (G.W g) (G.H g) HW HH Hsize data
              (Z.to_nat (G.W g * G.H g))) as (l & n & -> & Hinv); [lia|].
  by exists l, n.
Qed.

(** More fuel than [W * H] does not change the result. *)
Lemma buildComponentMap_fuel_enough (g : G.t) (data : list Z) (fuel : nat) :
  0 ≤ G.W g → 0 ≤ G.H g → G.W g * G.H g < 2 ^ 31 →
  G.W g * G.H g ≤ Z.of_nat fuel →
  ∃ g', buildComponentMap_fuel fuel g data = Some g'.
Proof.
  intros HW HH Hsize Hfuel. unfold buildComponentMap_fuel.
  destruct (segment_inv (G.W g) (G.H g) HW HH Hsize data fuel)
    as (l & n & -> & Hinv); [lia|].
  by eexists.
Qed.

(** The square of the 10 x 10 sample is one component of 9 pixels, and the
    91 other pixels have label 0; the 4 x 4 sample has four components. *)
Example segment_square :
  ∃ l, segment 100 10 10 squareGrey = Some (l, 1) ∧
       length (filter (λ x, x = 1) l) = 9%nat ∧ zeros l = 91%nat.
Proof. eexists. split; [vm_compute; reflexivity|]. split; by vm_compute. Qed.

Example segment_sample :
  segment 16 4 4 sampleGrey =
  Some ([0; 1; 0; 2; 1; 1; 0; 0; 0; 0; 0; 3; 4; 0; 3; 3], 4).
Proof. by vm_compute. Qed.

(** C2. After [buildComponentMap], at every pixel position of the grid the
    label is 0 exactly when [isForeground] rejects the pixel's channels:
    every foreground pixel has a positive label and every background pixel
    has label 0. *)
Theorem label_zero_iff_background (g : G.t) (data : list Z) :
  0 ≤ G.W g → 0 ≤ G.H g → G.W g * G.H g < 2 ^ 31 →
  ∃ g', buildComponentMap g data = Some g' ∧
    ∀ p, inGrid (G.W g) (G.H g) p →
      (∃ L, JS.get (G.compIdAt g') p = Some L ∧ 0 ≤ L ∧
            (L = 0 ↔ foregroundAt data p = false)) ∧
      (∀ r gr b, JS.get data (p * 4) = Some r →
         JS.get data (p * 4 + 1) = Some gr → JS.get data (p * 4 + 2) = Some b →
         (JS.get (G.compIdAt g') p = Some 0 ↔ isForeground r gr b = false)).
Proof.
  intros HW HH Hsize.
  destruct (buildComponentMap_inv g data HW HH Hsize) as (l & n & Hb & Hinv).
  eexists. split; [exact Hb|]. cbn [G.with_segmentation G.compIdAt].
  assert (∀ p, inGrid (G.W g) (G.H g) p →
            ∃ L, JS.get l p = Some L ∧ 0 ≤ L ∧
                 (L = 0 ↔ foregroundAt data p = false)) as Hlab.
  { intros p Hp.
    destruct (inGrid_labelled _ _ data _ _ _ _ p Hinv Hp) as (L & HL).
    exists L. split; [done|].
    destruct (decide (L = 0)) as [->|HL0].
    - split; [done|]. split; [|done]. intros _.
      destruct (foregroundAt data p) eqn:Hfg; [|done].
      destruct (inv_scanned _ _ _ _ _ _ _ Hinv p) as (L' & HL' & HL0');
        [done..|].
      by rewrite (labelled_fun _ _ _ _ HL HL') in HL0'.
    - destruct (inv_fg _ _ _ _ _ _ _ Hinv p L HL HL0) as [Hfg Hpos].
      split; [lia|]. split; [done|]. congruence. }
  intros p Hp. split; [by apply Hlab|].
  intros r gr b Hr Hg Hbl. destruct (Hlab p Hp) as (L & HL & _ & Hiff).
  assert (foregroundAt data p = isForeground r gr b) as <-.
  { unfold foregroundAt. by rewrite Hr, Hg, Hbl. }
  rewrite HL. split; [intros [= ->]; by apply Hiff|].
  intros Hf. f_equal. by apply Hiff.
Qed.

Lemma chain4_one_label W H data n cur l ps :
  SegInv W H data n cur l [] → chain4 W H ps →
  Forall (λ x, foregroundAt data x = true) ps →
  ∀ a L, head ps = Some a → labelled l a L → L ≠ 0 →
  Forall (λ x, labelled l x L) ps.
Proof.
  intros Hinv. induction ps as [|x [|y tl] IH]; intros Hc Hfg a L Ha HL HL0.
  - done.
  - injection Ha as ->. by apply Forall_singleton.
  - injection Ha as ->. destruct Hc as [Hadj Hc].
    apply Forall_cons in Hfg as [_ Hfg]. apply Forall_cons. split; [done|].
    apply (IH Hc Hfg y); [done| |done].
    destruct (inv_closed _ _ _ _ _ _ _ Hinv a y L Hadj HL HL0) as [Hy|Hin].
    + by apply Forall_cons in Hfg as [Hfy _].
    + done.
    + by apply elem_of_nil in Hin.
Qed.

(** In the finished label array, two positions are joined by foreground
    pixels exactly when they carry one non-zero label. *)
Lemma joined_iff_label W H data n l p q :
  SegInv W H data (W * H) n l [] →
  joined W H data p q ↔ ∃ L, L ≠ 0 ∧ labelled l p L ∧ labelled l q L.
Proof.
  intros Hinv. split.
  - intros (ps & Hh & Hl & Hc & Hall).
    apply head_Some_elem_of in Hh as Hp. apply last_Some_elem_of in Hl as Hq.
    rewrite Forall_forall in Hall. destruct (Hall p Hp) as [Hgp Hfp].
    destruct (inv_scanned _ _ _ _ _ _ _ Hinv p Hgp Hfp) as (L & HL & HL0).
    assert (Forall (λ x, foregroundAt data x = true) ps) as Hfg.
    { apply Forall_forall. intros x Hx. by destruct (Hall x Hx). }
    pose proof (chain4_one_label _ _ _ _ _ _ _ Hinv Hc Hfg p L Hh HL HL0)
      as Hlab.
    rewrite Forall_forall in Hlab. exists L. split; [done|]. split; [done|].
    by apply Hlab.
  - intros (L & HL0 & Hp & Hq). apply path4_chain.
    eapply path4_mono; [|by apply (inv_conn _ _ _ _ _ _ _ Hinv p q L)].
    intros x Hx. cbv beta in Hx. split.
    + by eapply labelled_inGrid.
    + by destruct (inv_fg _ _ _ _ _ _ _ Hinv x L Hx HL0).
Qed.

(** In the finished label array, the first position of each label is the
    first pixel of a component, and the first pixel of every component is
    the first position of a label. *)
Lemma firstPixel_componentFirst W H data n l k s :
  SegInv W H data (W * H) n l [] → k ≠ 0 →
  firstPixel l k = Some s → componentFirst W H data s.
Proof.
  intros Hinv Hk [Hs Hmin]%firstPixel_Some. split.
  - apply (joined_iff_label _ _ _ _ _ _ _ Hinv). by exists k.
  - intros q (L & HL0 & Hq & Hs')%(joined_iff_label _ _ _ _ _ _ _ Hinv).
    apply Hmin. by rewrite (labelled_fun _ _ _ _ Hs Hs').
Qed.

Lemma componentFirst_firstPixel W H data n l p :
  SegInv W H data (W * H) n l [] → componentFirst W H data p →
  ∃ k, 1 ≤ k ≤ n ∧ firstPixel l k = Some p.
Proof.
  intros Hinv [Hpp Hmin].
  apply (joined_iff_label _ _ _ _ _ _ _ Hinv) in Hpp as (L & HL0 & Hp & _).
  destruct (inv_fg _ _ _ _ _ _ _ Hinv p L Hp HL0) as [_ HL].
  destruct (firstPixel_is_Some _ _ _ Hp) as (s & Hs & Hle).
  exists L. split; [done|]. rewrite Hs. f_equal.
  pose proof Hs as [HsL _]%firstPixel_Some.
  assert (p ≤ s); [|lia]. apply Hmin.
  apply (joined_iff_label _ _ _ _ _ _ _ Hinv). by exists L.
Qed.

(** C1. After [buildComponentMap] the label array partitions the
    foreground into its 4-connected components.  Every position of the
    grid has a label, which is non-zero exactly when the pixel is
    foreground; two positions carry one non-zero label exactly when a
    sequence of foreground pixels, each a 4-neighbour of the next, leads
    from one to the other; two positions with the same non-zero label are
    the ends of such a sequence all of whose positions carry that label;
    and on a sequence of 4-neighbours that are all foreground no two
    positions carry different non-zero labels. *)
Theorem labels_are_4connected_components (g : G.t) (data : list Z) :
  0 ≤ G.W g → 0 ≤ G.H g → G.W g * G.H g < 2 ^ 31 →
  ∃ g', buildComponentMap g data = Some g' ∧
    (∀ p, inGrid (G.W g) (G.H g) p →
       ∃ L, labelled (G.compIdAt g') p L ∧
            (L ≠ 0 ↔ foregroundAt data p = true)) ∧
    (∀ p L, labelled (G.compIdAt g') p L → L ≠ 0 →
       inGrid (G.W g) (G.H g) p ∧ foregroundAt data p = true) ∧
    (∀ p q, joined (G.W g) (G.H g) data p q ↔
       ∃ L, L ≠ 0 ∧ labelled (G.compIdAt g') p L ∧
            labelled (G.compIdAt g') q L) ∧
    (∀ p q L, L ≠ 0 →
       labelled (G.compIdAt g') p L → labelled (G.compIdAt g') q L →
       ∃ ps, head ps = Some p ∧ last ps = Some q ∧
             chain4 (G.W g) (G.H g) ps ∧
             Forall (λ x, labelled (G.compIdAt g') x L) ps) ∧
    (∀ ps a b La Lb,
       chain4 (G.W g) (G.H g) ps →
       Forall (λ x, foregroundAt data x = true) ps →
       a ∈ ps → b ∈ ps →
       labelled (G.compIdAt g') a La → labelled (G.compIdAt g') b Lb →
       La ≠ 0 → Lb ≠ 0 → La = Lb).
Proof.
  intros HW HH Hsize.
  destruct (buildComponentMap_inv g data HW HH Hsize) as (l & n & Hb & Hinv).
  eexists. split; [exact Hb|]. cbn [G.with_segmentation G.compIdAt].
  split; [|split; [|split; [|split]]].
  - intros p Hp.
    destruct (inGrid_labelled _ _ data _ _ _ _ p Hinv Hp) as (L & HL).
    exists L. split; [done|]. split.
    + intros HL0. by destruct (inv_fg _ _ _ _ _ _ _ Hinv p L HL HL0).
    + intros Hfg.
      destruct (inv_scanned _ _ _ _ _ _ _ Hinv p Hp Hfg) as (L' & HL' & HL0).
      by rewrite (labelled_fun _ _ _ _ HL HL').
  - intros p L HL HL0. split.
    + by eapply labelled_inGrid.
    + by destruct (inv_fg _ _ _ _ _ _ _ Hinv p L HL HL0).
  - intros p q. by apply joined_iff_label with n.
  - intros p q L HL0 Hp Hq. apply path4_chain.
    by apply (inv_conn _ _ _ _ _ _ _ Hinv).
  - intros ps a b La Lb Hc Hfg Ha Hb' HLa HLb HLa0 HLb0.
    destruct ps as [|x [|y tl]].
    + by apply elem_of_nil in Ha.
    + apply list_elem_of_singleton in Ha as ->.
      apply list_elem_of_singleton in Hb' as ->.
      by eapply labelled_fun.
    + pose proof Hc as [(Hx & _ & _) _].
      destruct (inv_scanned _ _ _ _ _ _ _ Hinv x) as (L & HL & HL0).
      { done. }
      { by apply Forall_cons in Hfg as [Hfx _]. }
      pose proof (chain4_one_label _ _ _ _ _ _ _ Hinv Hc Hfg x L eq_refl HL HL0)
        as Hall.
      rewrite Forall_forall in Hall.
      rewrite (labelled_fun _ _ _ _ HLa (Hall a Ha)).
      by rewrite (labelled_fun _ _ _ _ HLb (Hall b Hb')).
Qed.

(** C3. [buildComponentMap] computes the label array from the image size
    and the buffer alone, so a second run, from whatever state the first
    left, stores the same array; and it numbers the components of the
    foreground 1, 2, ... in the row-major order of their first pixels.
    The first pixels of the components, listed in increasing order, are as
    many as the count; the one at place [i] of the list (counting from 0)
    is the first position that carries label [i + 1], and the positions
    that carry label [i + 1] are exactly those joined to it by foreground
    pixels.  So every label up to the count is used, and of two labels the
    smaller is the one whose first pixel comes first. *)
Theorem labels_in_discovery_order (g : G.t) (data : list Z) :
  0 ≤ G.W g → 0 ≤ G.H g → G.W g * G.H g < 2 ^ 31 →
  ∃ g', buildComponentMap g data = Some g' ∧
    (∀ h, G.W h = G.W g → G.H h = G.H g →
       ∃ h', buildComponentMap h data = Some h' ∧
             G.compIdAt h' = G.compIdAt g' ∧ G.compCount h' = G.compCount g') ∧
    (∃ g'', buildComponentMap g' data = Some g'' ∧
            G.compIdAt g'' = G.compIdAt g') ∧
    (∀ p L, labelled (G.compIdAt g') p L → 0 ≤ L ≤ G.compCount g') ∧
    (∃ firsts,
       Z.of_nat (length firsts) = G.compCount g' ∧
       (∀ s, s ∈ firsts ↔ componentFirst (G.W g) (G.H g) data s) ∧
       (∀ i j si sj, firsts !! i = Some si → firsts !! j = Some sj →
          (i < j)%nat → si < sj) ∧
       (∀ i s, firsts !! i = Some s →
          firstPixel (G.compIdAt g') (Z.of_nat i + 1) = Some s ∧
          ∀ q, labelled (G.compIdAt g') q (Z.of_nat i + 1) ↔
               joined (G.W g) (G.H g) data s q)) ∧
    (∀ k, 1 ≤ k ≤ G.compCount g' →
       ∃ s, firstPixel (G.compIdAt g') k = Some s) ∧
    (∀ j k sj sk, 1 ≤ j → 1 ≤ k →
       firstPixel (G.compIdAt g') j = Some sj →
       firstPixel (G.compIdAt g') k = Some sk →
       (sj < sk ↔ j < k)).
Proof.
  intros HW HH Hsize.
  destruct (buildComponentMap_inv g data HW HH Hsize) as (l & n & Hb & Hinv).
  assert (∀ h, G.W h = G.W g → G.H h = G.H g →
    ∃ h', buildComponentMap h data = Some h' ∧
          G.compIdAt h' = l ∧ G.compCount h' = n) as Hdet.
  { intros h HhW HhH. revert Hb.
    unfold buildComponentMap, buildComponentMap_fuel. rewrite HhW, HhH.
    destruct (segment _ _ _ _) as [[l' n']|]; [|done].
    intros [= -> ->]. by eexists. }
  eexists. split; [exact Hb|].
  cbn [G.with_segmentation G.compIdAt G.compCount].
  split; [done|]. split.
  { destruct (Hdet (G.with_segmentation g l n)) as (h' & Hh' & Hl' & _);
      [done..|]. by exists h'. }
  assert (∀ j k sj sk, 1 ≤ j < k →
            firstPixel l j = Some sj → firstPixel l k = Some sk → sj < sk)
    as Hlt.
  { intros j k sj sk Hjk [_ Hmin]%firstPixel_Some [Hk _]%firstPixel_Some.
    destruct (inv_order _ _ _ _ _ _ _ Hinv sk k j Hk Hjk) as (s & Hs & HL).
    specialize (Hmin s HL). lia. }
  assert (∀ k, 1 ≤ k ≤ n → ∃ s, firstPixel l k = Some s) as Hused.
  { intros k Hk. destruct (inv_seed _ _ _ _ _ _ _ Hinv k Hk) as (s & _ & HL).
    destruct (firstPixel_is_Some _ _ _ HL) as (s' & Hs' & _). by exists s'. }
  pose proof (inv_bounds _ _ _ _ _ _ _ Hinv) as Hn.
  split; [|split; [|split; [done|]]].
  - intros p L HL. destruct (decide (L = 0)) as [->|HL0].
    + lia.
    + destruct (inv_fg _ _ _ _ _ _ _ Hinv p L HL HL0). lia.
  - set (first := λ i : nat, default 0 (firstPixel l (Z.of_nat i + 1))).
    assert (∀ i s, (first <$> seq 0 (Z.to_nat n)) !! i = Some s ↔
              (i < Z.to_nat n)%nat ∧ firstPixel l (Z.of_nat i + 1) = Some s)
      as Hlook.
    { intros i s. rewrite list_lookup_fmap. split.
      - intros Hi. apply fmap_Some in Hi as (j & Hj & ->).
        apply lookup_seq in Hj as [-> Hj]. split; [done|].
        destruct (Hused (Z.of_nat i + 1)) as (s' & Hs'); [lia|].
        unfold first. cbn [Nat.add]. by rewrite Hs'.
      - intros [Hi Hs]. rewrite lookup_seq_lt by done. cbn.
        unfold first. by rewrite Hs. }
    exists (first <$> seq 0 (Z.to_nat n)). split; [|split; [|split]].
    + rewrite length_fmap, length_seq. lia.
    + intros s. split.
      * intros (i & Hi)%list_elem_of_lookup_1. apply Hlook in Hi as [_ Hi].
        eapply firstPixel_componentFirst; [exact Hinv| |exact Hi]. lia.
      * intros (k & Hk & Hs)%(componentFirst_firstPixel _ _ _ _ _ _ Hinv).
        apply (list_elem_of_lookup_2 _ (Z.to_nat (k - 1))). apply Hlook.
        split; [lia|]. by replace (Z.of_nat (Z.to_nat (k - 1)) + 1) with k by lia.
    + intros i j si sj [_ Hi]%Hlook [_ Hj]%Hlook Hij.
      apply (Hlt (Z.of_nat i + 1) (Z.of_nat j + 1)); [lia|done..].
    + intros i s [_ Hi]%Hlook. split; [done|]. intros q.
      pose proof Hi as [Hs _]%firstPixel_Some.
      rewrite (joined_iff_label _ _ _ _ _ s q Hinv). split.
      * intros Hq. exists (Z.of_nat i + 1). split; [lia|done].
      * intros (L & _ & Hs' & Hq). by rewrite (labelled_fun _ _ _ _ Hs Hs').
  - intros j k sj sk Hj Hk Hfj Hfk. split.
    + intros Hs. destruct (Z.lt_trichotomy j k) as [|[->|Hgt]]; [done| |].
      * rewrite Hfj in Hfk. injection Hfk as ->. lia.
      * pose proof (Hlt k j sk sj ltac:(lia) Hfk Hfj). lia.
    + intros Hjk. by apply (Hlt j k).
Qed.

(** ** Compositor *)

Lemma paint_length c p o : length (paint c p o) = length o.
Proof. unfold paint. by rewrite !length_set. Qed.

Lemma pixel_index p r :
  0 ≤ r < 4 → (p * 4 + r) / 4 = p ∧ (p * 4 + r) mod 4 = r.
Proof.
  intros Hr. rewrite Z.add_comm, Z_div_plus_full, Z_mod_plus_full by lia.
  rewrite Z.div_small, Z.mod_small by lia. lia.
Qed.

(** [paint] changes the four channels of pixel [p] and nothing else. *)
Lemma paint_get c p o j :
  0 ≤ p → p * 4 + 3 < Z.of_nat (length o) →
  JS.get (paint c p o) j =
  if decide (j / 4 = p)
  then (if decide (j mod 4 = 3) then Some 255 else Some (channel c j))
  else JS.get o j.
Proof.
  intros Hp Hlen. unfold paint.
  destruct (decide (j / 4 = p)) as [Hj|Hne].
  - pose proof (Z.div_mod j 4 ltac:(lia)) as Hdm.
    pose proof (Z.mod_pos_bound j 4 ltac:(lia)) as Hm.
    destruct (decide (j mod 4 = 3)) as [H3|H3].
    + replace j with (p * 4 + 3) by lia.
      apply get_set_eq. rewrite !length_set. lia.
    + rewrite get_set_ne by lia.
      destruct (decide (j mod 4 = 2)) as [H2|H2].
      { replace j with (p * 4 + 2) by lia.
        apply get_set_eq. rewrite !length_set. lia. }
      rewrite get_set_ne by lia.
      destruct (decide (j mod 4 = 1)) as [H1|H1].
      { replace j with (p * 4 + 1) by lia.
        apply get_set_eq. rewrite !length_set. lia. }
      rewrite get_set_ne by lia.
      replace j with (p * 4) by lia. apply get_set_eq. lia.
  - assert (j < p * 4 ∨ p * 4 + 3 < j) as Hout.
    { destruct (Z.lt_ge_cases j (p * 4)) as [|Hge]; [by left|right].
      destruct (Z.lt_ge_cases (p * 4 + 3) j) as [|Hle]; [done|].
      destruct Hne. replace j with (p * 4 + (j - p * 4)) by lia.
      apply pixel_index. lia. }
    rewrite !get_set_ne by lia. done.
Qed.

(** The value the loop of [redraw] leaves at index [j] of the output: the
    pixels from [i] on, [n] of them, are repainted where selected. *)
Lemma recolor_loop comps ids c n :
  ∀ i o, 0 ≤ i → (i + Z.of_nat n) * 4 ≤ Z.of_nat (length o) →
  length (JS.for_range n i (recolor comps ids c) o) = length o ∧
  ∀ j, JS.get (JS.for_range n i (recolor comps ids c) o) j =
       if bool_decide (i ≤ j / 4 < i + Z.of_nat n) && selected comps ids (j / 4)
       then (if decide (j mod 4 = 3) then Some 255 else Some (channel c j))
       else JS.get o j.
Proof.
  induction n as [|n IH]; intros i o Hi Hlen; cbn [JS.for_range].
  - split; [done|]. intros j. rewrite bool_decide_eq_false_2 by lia. done.
  - assert (length (recolor comps ids c i o) = length o) as Hl1.
    { unfold recolor. destruct (selected comps ids i); [apply paint_length|done]. }
    destruct (IH (i + 1) (recolor comps ids c i o)) as [Hl Hget];
      [lia|rewrite Hl1; lia|].
    split; [by rewrite Hl|].
    intros j. rewrite Hget.
    assert (JS.get (recolor comps ids c i o) j =
            if bool_decide (j / 4 = i) && selected comps ids (j / 4)
            then (if decide (j mod 4 = 3) then Some 255 else Some (channel c j))
            else JS.get o j) as ->.
    { unfold recolor. destruct (decide (j / 4 = i)) as [Heq|Hne].
      - rewrite bool_decide_eq_true_2 by done. rewrite Heq. cbn [andb].
        destruct (selected comps ids i); [|done].
        rewrite paint_get by lia. by rewrite decide_True.
      - rewrite bool_decide_eq_false_2 by done. cbn [andb].
        destruct (selected comps ids i); [|done].
        rewrite paint_get by lia. by rewrite decide_False. }
    destruct (selected comps ids (j / 4)); rewrite ?andb_true_r, ?andb_false_r;
      [|done].
    destruct (decide (j / 4 = i)) as [Heq|Hne].
    + rewrite (bool_decide_eq_false_2 (i + 1 ≤ _ < _)) by lia.
      rewrite (bool_decide_eq_true_2 (j / 4 = i)) by done.
      by rewrite bool_decide_eq_true_2 by lia.
    + rewrite (bool_decide_eq_false_2 (j / 4 = i)) by done.
      destruct (decide (i + 1 ≤ j / 4 < i + 1 + Z.of_nat n)).
      * rewrite !bool_decide_eq_true_2 by lia. done.
      * rewrite !bool_decide_eq_false_2 by lia. done.
Qed.

Lemma truthy_Some k : JS.truthy (Some k) = true ↔ k ≠ "".
Proof.
  cbn. rewrite negb_true_iff. split.
  - intros Hk ->. by rewrite String.eqb_refl in Hk.
  - intros Hk. by apply String.eqb_neq.
Qed.

(** [redraw] when it returns before the loop. *)
Lemma redraw_early (g : G.t) :
  JS.truthy (G.hoverItemKey g) = false ∨
  (∃ k, G.hoverItemKey g = Some k ∧
        (G.itemKeyToComps g !! k = None ∨ G.itemKeyToComps g !! k = Some ∅)) →
  G.canvas (redraw g) = G.greyData g.
Proof.
  unfold redraw. intros [->|(k & -> & Hk)]; [done|].
  destruct (negb (JS.truthy (Some k))); [done|]. cbn [mbind option_bind].
  destruct Hk as [->| ->]; [done|].
  rewrite decide_True; [done|]. apply size_empty.
Qed.

(** [redraw] when it reaches the loop: the output, pixel by pixel. *)
Lemma redraw_pixels (g : G.t) k comps :
  length (G.greyData g) = Z.to_nat (G.W g * G.H g * 4) →
  length (G.colorData g) = Z.to_nat (G.W g * G.H g * 4) →
  G.hoverItemKey g = Some k → k ≠ "" →
  G.itemKeyToComps g !! k = Some comps → comps ≠ ∅ →
  length (G.canvas (redraw g)) = length (G.greyData g) ∧
  ∀ p, 0 ≤ p < G.W g * G.H g →
    rgba (G.canvas (redraw g)) p =
    if selected comps (G.compIdAt g) p
    then (JS.get (G.colorData g) (p * 4), JS.get (G.colorData g) (p * 4 + 1),
          JS.get (G.colorData g) (p * 4 + 2), Some 255)
    else rgba (G.greyData g) p.
Proof.
  intros Hgrey Hcol Hk Hk0 Hc Hne. unfold redraw. rewrite Hk.
  rewrite (proj2 (truthy_Some k) Hk0). cbn [negb mbind option_bind]. rewrite Hc.
  destruct (decide (size comps = 0%nat)) as [Hs|_].
  { apply size_empty_iff in Hs. by apply leibniz_equiv in Hs. }
  cbn [G.with_canvas G.canvas].
  destruct (recolor_loop comps (G.compIdAt g) (G.colorData g)
              (Z.to_nat (G.W g * G.H g)) 0 (G.greyData g)) as [Hlen Hget];
    [lia|rewrite Hgrey; lia|].
  split; [done|]. intros p Hp. unfold rgba. rewrite !Hget.
  pose proof (pixel_index p) as Hdm.
  assert (∀ r, 0 ≤ r < 4 →
            Some (channel (G.colorData g) (p * 4 + r)) =
            JS.get (G.colorData g) (p * 4 + r)) as Hch.
  { intros r Hr. unfold channel.
    destruct (get_is_Some (G.colorData g) (p * 4 + r)) as [v ->]; [|done].
    rewrite Hcol. lia. }
  destruct (Hdm 0) as [Hd0 Hm0]; [lia|]. rewrite Z.add_0_r in Hd0, Hm0.
  destruct (Hdm 1) as [Hd1 Hm1]; [lia|].
  destruct (Hdm 2) as [Hd2 Hm2]; [lia|].
  destruct (Hdm 3) as [Hd3 Hm3]; [lia|].
  rewrite Hd0, Hd1, Hd2, Hd3, Hm0, Hm1, Hm2, Hm3.
  rewrite bool_decide_eq_true_2 by lia. cbn [andb].
  destruct (selected comps (G.compIdAt g) p); [|done].
  rewrite (decide_False (P := (0 = 3))), (decide_False (P := (1 = 3))),
    (decide_False (P := (2 = 3))), (decide_True (P := (3 = 3))) by done.
  specialize (Hch 0 ltac:(lia)) as Hch0. rewrite Z.add_0_r in Hch0.
  by rewrite Hch0, (Hch 1), (Hch 2) by lia.
Qed.

(** C4. With no active selection the output of [redraw] is the base
    buffer.  With an active selection whose label set is not empty, at
    every pixel position below [W * H] the output has the colour buffer's
    red, green and blue and alpha 255 where the label is in the set, and
    the base buffer's four channels elsewhere. *)
Theorem redraw_composites (g : G.t) :
  length (G.greyData g) = Z.to_nat (G.W g * G.H g * 4) →
  length (G.colorData g) = Z.to_nat (G.W g * G.H g * 4) →
  (G.hoverItemKey g = None → G.canvas (redraw g) = G.greyData g) ∧
  (∀ k comps,
     G.hoverItemKey g = Some k → JS.truthy (Some k) = true →
     G.itemKeyToComps g !! k = Some comps → comps ≠ ∅ →
     ∀ p L, 0 ≤ p < G.W g * G.H g → JS.get (G.compIdAt g) p = Some L →
       (L ∈ comps →
          rgba (G.canvas (redraw g)) p =
          (JS.get (G.colorData g) (p * 4), JS.get (G.colorData g) (p * 4 + 1),
           JS.get (G.colorData g) (p * 4 + 2), Some 255)) ∧
       (L ∉ comps →
          rgba (G.canvas (redraw g)) p = rgba (G.greyData g) p)).
Proof.
  intros Hgrey Hcol. split.
  - intros Hk. apply redraw_early. left. by rewrite Hk.
  - intros k comps Hk Hk0%truthy_Some Hc Hne p L Hp HL.
    destruct (redraw_pixels g k comps Hgrey Hcol Hk Hk0 Hc Hne) as [_ Hpx].
    rewrite (Hpx p Hp). unfold selected. rewrite HL. split; intros HLc.
    + by rewrite bool_decide_eq_true_2.
    + by rewrite bool_decide_eq_false_2.
Qed.

(** C10. When the active selection is a key that the item-to-labels table
    maps to the empty set, or does not hold at all, the output of [redraw]
    is the base buffer. *)
Theorem redraw_without_labels (g : G.t) (k : string) :
  G.hoverItemKey g = Some k →
  G.itemKeyToComps g !! k = Some ∅ ∨ G.itemKeyToComps g !! k = None →
  G.canvas (redraw g) = G.greyData g.
Proof.
  intros Hk Hc. apply redraw_early. right. exists k. tauto.
Qed.

(** ** Hit test *)

(** Under a rectangle that starts at the origin and has the size of the
    image, a pointer on a pixel's corner maps to that pixel. *)
Lemma identity_scale (W x : Z) :
  0 < W → Qfloor ((inject_Z x - 0) * (inject_Z W / inject_Z W)) = x.
Proof.
  intros HW.
  assert (¬ inject_Z W == 0)%Q as Hne by (unfold Qeq; cbn; lia).
  rewrite <- (Qfloor_Z x) at 2. apply Qfloor_comp. by field.
Qed.


(** The hit test in terms of its two pixel coordinates. *)
Lemma componentAtClientXY_cases (W H : Z) (ids : list Z) (rect : Rect)
  (cx cy : Q) :
  let '(px, py) := clientToPixel W H rect cx cy in
  (¬ (0 ≤ px < W ∧ 0 ≤ py < H) → componentAtClientXY W H ids rect cx cy = 0) ∧
  (0 ≤ px < W ∧ 0 ≤ py < H →
     componentAtClientXY W H ids rect cx cy =
     JS.or_zero (JS.get ids (py * W + px))).
Proof.
  unfold componentAtClientXY. destruct (clientToPixel W H rect cx cy) as [px py].
  destruct ((px <? 0) || (px >=? W) || (py <? 0) || (py >=? H)) eqn:Hb.
  - split; [done|]. intros Hin. apply (bounds_test W H) in Hin. congruence.
  - split; [|done]. intros Hout. by apply (bounds_test W H) in Hb.
Qed.



(** ** Item mapping *)

Lemma elem_of_addAnchors W H ids pts (acc : gset Z) id :
  id ∈ fold_left (addAnchor W H ids) pts acc ↔
  id ∈ acc ∨ (id ≠ 0 ∧ ∃ pt, pt ∈ pts ∧ anchorId W H ids pt = id).
Proof.
  revert acc. induction pts as [|pt pts IH]; intros acc; cbn [fold_left].
  - split; [by left|]. intros [Hin|(_ & pt & Hpt & _)]; [done|].
    by apply elem_of_nil in Hpt.
  - rewrite IH. unfold addAnchor.
    destruct (Z.eqb_spec (anchorId W H ids pt) 0) as [H0|H0].
    + split.
      * intros [Hin|(Hid & pt' & Hpt' & Heq)]; [by left|right].
        split; [done|]. exists pt'. split; [by right|done].
      * intros [Hin|(Hid & pt' & Hpt' & Heq)]; [by left|].
        apply elem_of_cons in Hpt' as [->|Hpt']; [congruence|right].
        split; [done|]. by exists pt'.
    + split.
      * intros [[->%elem_of_singleton|Hin]%elem_of_union|(Hid & pt' & Hpt' & Heq)].
        -- right. split; [done|]. exists pt. split; [by left|done].
        -- by left.
        -- right. split; [done|]. exists pt'. split; [by right|done].
      * intros [Hin|(Hid & pt' & Hpt' & Heq)]; [left; set_solver|].
        apply elem_of_cons in Hpt' as [->|Hpt'].
        -- left. set_solver.
        -- right. split; [done|]. by exists pt'.
Qed.

(** The label set of an item holds the non-zero labels its anchors read. *)
Lemma elem_of_anchorSet W H ids pts id :
  id ∈ anchorSet W H ids pts ↔
  id ≠ 0 ∧ ∃ pt, pt ∈ pts ∧ anchorId W H ids pt = id.
Proof.
  unfold anchorSet. rewrite elem_of_addAnchors. set_solver.
Qed.

(** What an anchor reads when its pixel is in the image. *)
Lemma anchorId_inside W H ids pt px py L :
  anchorPixel W H pt = (px, py) →
  JS.get ids (py * W + px) = Some L → anchorId W H ids pt = L.
Proof.
  intros Hpx HL. unfold anchorId. rewrite Hpx, HL. cbn.
  by destruct (Z.eqb_spec L 0) as [->|].
Qed.

(** An anchor whose row is below the image reads nothing. *)
Lemma anchorId_below W H ids pt px py :
  anchorPixel W H pt = (px, py) →
  length ids = Z.to_nat (W * H) → 0 ≤ W → 0 ≤ H → 0 ≤ px → H ≤ py →
  anchorId W H ids pt = 0.
Proof.
  intros Hpx Hlen HW HH Hx Hy. unfold anchorId. rewrite Hpx.
  assert (W * H ≤ py * W + px) by nia.
  rewrite get_None_ge; [done|]. rewrite Hlen. nia.
Qed.

Lemma set_fold_insert_lookup (k : string) (m0 : gmap Z string) (X : gset Z) i :
  set_fold (λ id m, <[id:=k]> m) m0 X !! i =
  if decide (i ∈ X) then Some k else m0 !! i.
Proof.
  revert i. revert X.
  apply (set_fold_ind_L
    (λ (r : gmap Z string) (Y : gset Z),
       ∀ i, r !! i = if decide (i ∈ Y) then Some k else m0 !! i)
    (λ id m, <[id:=k]> m) m0).
  - intros i. by rewrite decide_False by set_solver.
  - intros x Y r Hx IH i. destruct (decide (i = x)) as [->|Hne].
    + rewrite lookup_insert_eq. by rewrite decide_True by set_solver.
    + rewrite lookup_insert_ne by done. rewrite IH.
      destruct (decide (i ∈ Y)).
      * by rewrite decide_True by set_solver.
      * by rewrite decide_False by set_solver.
Qed.

(** The tables [buildItemMappings] leaves for a catalog, starting from any
    tables: the image and the label array are untouched; a label is mapped
    when an item holds it, and then to the key of an item that holds it;
    and when the keys of the catalog are distinct each key is mapped to
    the label set of its item. *)
Lemma mapItems_tables (items : list Item) (g0 : G.t) :
  let g' := fold_left mapItem items g0 in
  let set_of it := anchorSet (G.W g0) (G.H g0) (G.compIdAt g0) (pts it) in
  (G.W g' = G.W g0 ∧ G.H g' = G.H g0 ∧ G.compIdAt g' = G.compIdAt g0 ∧
   G.greyData g' = G.greyData g0 ∧ G.colorData g' = G.colorData g0 ∧
   G.hoverItemKey g' = G.hoverItemKey g0) ∧
  (∀ L k, G.compToItemKey g' !! L = Some k →
     (∃ it, it ∈ items ∧ key it = k ∧ L ∈ set_of it) ∨
     G.compToItemKey g0 !! L = Some k) ∧
  (∀ L it, it ∈ items → L ∈ set_of it → is_Some (G.compToItemKey g' !! L)) ∧
  (NoDup (key <$> items) →
     ∀ it, it ∈ items → G.itemKeyToComps g' !! key it = Some (set_of it)).
Proof.
  induction items as [|x items IH] using rev_ind; cbn zeta.
  - cbn [fold_left]. split; [done|]. split; [by right|]. split.
    + intros L it Hit. by apply elem_of_nil in Hit.
    + intros _ it Hit. by apply elem_of_nil in Hit.
  - rewrite fold_left_app. cbn [fold_left].
    cbn zeta in IH. destruct IH as ((HW & HH & Hids & Hgr & Hco & Hho) &
                                    Hkey & Hsome & Hcomps).
    set (g1 := fold_left mapItem items g0) in *.
    unfold mapItem.
    cbn [G.with_tables G.W G.H G.compIdAt G.greyData G.colorData
         G.hoverItemKey G.compToItemKey G.itemKeyToComps].
    rewrite HW, HH, Hids.
    split; [done|]. split; [|split].
    + intros L k. rewrite set_fold_insert_lookup.
      destruct (decide (L ∈ _)) as [Hin|Hnin].
      * intros Heq. injection Heq as <-. left. exists x.
        split; [set_solver|done].
      * intros [(it & Hit & Hk & HL)|Hold]%Hkey; [left|by right].
        exists it. split; [set_solver|done].
    + intros L it Hit HL. rewrite set_fold_insert_lookup.
      destruct (decide (L ∈ _)) as [Hin|Hnin]; [done|].
      apply elem_of_app in Hit as [Hit|Hit]; [by apply (Hsome L it)|].
      apply list_elem_of_singleton in Hit as ->. done.
    + intros Hnd it Hit. rewrite fmap_app in Hnd.
      apply NoDup_app in Hnd as (Hnd & Hfresh & _).
      apply elem_of_app in Hit as [Hit|Hit].
      * rewrite lookup_insert_ne; [by apply Hcomps|].
        intros Heq. apply (Hfresh (key it)).
        -- by apply list_elem_of_fmap_2.
        -- rewrite <- Heq. set_solver.
      * apply list_elem_of_singleton in Hit as ->. by rewrite lookup_insert_eq.
Qed.

(** The catalog of the source has distinct keys, none of them empty, and
    all its anchors have both coordinates in [0, 1). *)
Lemma ITEMS_well_formed :
  NoDup (key <$> ITEMS) ∧
  Forall (λ it, key it ≠ "") ITEMS ∧
  Forall (λ it, Forall (λ pt, (0 <= fst pt)%Q ∧ (fst pt < 1)%Q ∧
                              (0 <= snd pt)%Q ∧ (snd pt < 1)%Q) (pts it))
    ITEMS.
Proof.
  split; [|split].
  - apply (bool_decide_unpack _). by vm_compute.
  - apply (bool_decide_unpack _). by vm_compute.
  - unfold ITEMS. repeat (apply Forall_cons; split; [|]);
      try apply Forall_nil; cbn [pts];
      repeat (apply Forall_cons; split; [|]); try apply Forall_nil;
      cbn [fst snd]; unfold Qle, Qlt; cbn; lia.
Qed.

(** C5 (the source departs from it). An anchor on the right edge of the
    image has [px = W], outside the image, but the source reads the label
    array at [py * W + px] without a bounds test, which is the first pixel
    of the next row: here the anchor [(1, 0)] of a 2 x 2 image reads the
    label of the pixel in column 0 of row 1, and the item gets that label. *)
Theorem anchor_on_right_edge_reads_next_row :
  G.compIdAt <$>
    buildComponentMap (G.with_images G.initial 2 2 edgeGrey edgeGrey) edgeGrey
    = Some (G.compIdAt edgeState) ∧
  anchorPixel 2 2 (1, 0)%Q = (2, 0) ∧
  anchorId 2 2 (G.compIdAt edgeState) (1, 0)%Q = 1 ∧
  G.itemKeyToComps (buildItemMappings_of edgeItems edgeState) !! "edge"
    = Some {[1]} ∧
  G.compToItemKey (buildItemMappings_of edgeItems edgeState) !! 1
    = Some "edge".
Proof. repeat split; by vm_compute. Qed.

(** ** Hit test, tables and compositor together *)

Lemma buildItemMappings_of_frame (items : list Item) (g : G.t) :
  let g' := buildItemMappings_of items g in
  G.W g' = G.W g ∧ G.H g' = G.H g ∧ G.compIdAt g' = G.compIdAt g ∧
  G.greyData g' = G.greyData g ∧ G.colorData g' = G.colorData g ∧
  G.hoverItemKey g' = G.hoverItemKey g.
Proof. apply (mapItems_tables items (G.with_tables g ∅ ∅ ∅)). Qed.

(** With distinct keys, a label some item holds is mapped to the key of an
    item whose label set, as the table has it, holds the label. *)
Lemma buildItemMappings_of_key (items : list Item) (g : G.t) (it : Item) L :
  NoDup (key <$> items) → it ∈ items →
  L ∈ anchorSet (G.W g) (G.H g) (G.compIdAt g) (pts it) →
  let g' := buildItemMappings_of items g in
  ∃ it' comps, it' ∈ items ∧
    G.compToItemKey g' !! L = Some (key it') ∧
    G.itemKeyToComps g' !! key it' = Some comps ∧ L ∈ comps.
Proof.
  intros Hnd Hit HL.
  destruct (mapItems_tables items (G.with_tables g ∅ ∅ ∅))
    as (_ & Hkey & Hsome & Hcomps).
  cbn [G.with_tables G.W G.H G.compIdAt G.compToItemKey] in *.
  destruct (Hsome L it Hit HL) as [k Hk].
  destruct (Hkey L k Hk) as [(it' & Hit' & <- & HL')|Hold]; [|done].
  exists it', (anchorSet (G.W g) (G.H g) (G.compIdAt g) (pts it')).
  split; [done|]. split; [done|]. split; [by apply Hcomps|done].
Qed.

(** C7 (as amended). Take a catalog whose keys are distinct and not empty,
    and an anchor of one of its items whose pixel is in the image and has
    the non-zero label [L].  A pointer on that pixel, under the rectangle
    at the origin with the size of the image, is answered [L]; the
    label-to-item table maps [L] to a key whose label set holds [L]; and
    [redraw] with that key selected gives every pixel whose label is in
    that set (the pixels labelled [L] among them) the colour buffer's red,
    green and blue and alpha 255, and leaves every other pixel as in the
    base buffer. *)
Theorem anchor_roundtrip (items : list Item) (g : G.t) (it : Item)
  (pt : Q * Q) (px py L : Z) :
  NoDup (key <$> items) → (∀ i, i ∈ items → key i ≠ "") →
  length (G.greyData g) = Z.to_nat (G.W g * G.H g * 4) →
  length (G.colorData g) = Z.to_nat (G.W g * G.H g * 4) →
  it ∈ items → pt ∈ pts it →
  anchorPixel (G.W g) (G.H g) pt = (px, py) →
  0 ≤ px < G.W g → 0 ≤ py < G.H g →
  JS.get (G.compIdAt g) (py * G.W g + px) = Some L → L ≠ 0 →
  let g' := buildItemMappings_of items g in
  let rect := mkRect 0 0 (inject_Z (G.W g)) (inject_Z (G.H g)) in
  componentAtClientXY (G.W g') (G.H g') (G.compIdAt g') rect
    (inject_Z px) (inject_Z py) = L ∧
  ∃ k comps,
    G.compToItemKey g' !! L = Some k ∧ itemKeyAt g' L = Some k ∧
    G.itemKeyToComps g' !! k = Some comps ∧ L ∈ comps ∧
    ∀ p M, 0 ≤ p < G.W g * G.H g → JS.get (G.compIdAt g) p = Some M →
      (M ∈ comps →
         rgba (G.canvas (redraw (G.with_hover g' (Some k)))) p =
         (JS.get (G.colorData g) (p * 4), JS.get (G.colorData g) (p * 4 + 1),
          JS.get (G.colorData g) (p * 4 + 2), Some 255)) ∧
      (M ∉ comps →
         rgba (G.canvas (redraw (G.with_hover g' (Some k)))) p =
         rgba (G.greyData g) p).
Proof.
  intros Hnd Hkeys Hgrey Hcol Hit Hpt Hpx Hx Hy HL HL0 g' rect.
  destruct (buildItemMappings_of_frame items g)
    as (HW & HH & Hids & Hgr & Hco & _). fold g' in HW, HH, Hids, Hgr, Hco.
  split.
  - subst rect. rewrite HW, HH, Hids.
    pose proof (componentAtClientXY_cases (G.W g) (G.H g) (G.compIdAt g)
                  (mkRect 0 0 (inject_Z (G.W g)) (inject_Z (G.H g)))
                  (inject_Z px) (inject_Z py)) as Hcases.
    unfold clientToPixel in Hcases.
    cbn [rect_left rect_top rect_width rect_height] in Hcases.
    rewrite !identity_scale in Hcases by lia.
    rewrite (proj2 Hcases (conj Hx Hy)), HL. cbn.
    by destruct (Z.eqb_spec L 0).
  - assert (L ∈ anchorSet (G.W g) (G.H g) (G.compIdAt g) (pts it)) as Hin.
    { apply elem_of_anchorSet. split; [done|]. exists pt. split; [done|].
      by eapply anchorId_inside. }
    destruct (buildItemMappings_of_key items g it L Hnd Hit Hin)
      as (it' & comps & Hit' & Hk & Hc & HLc). fold g' in Hk, Hc.
    pose proof (Hkeys it' Hit') as Hne.
    exists (key it'), comps. split; [done|]. split.
    { unfold itemKeyAt. rewrite Hk.
      by rewrite (proj2 (truthy_Some (key it')) Hne). }
    split; [done|]. split; [done|].
    intros p M Hp HM.
    destruct (redraw_pixels (G.with_hover g' (Some (key it'))) (key it') comps)
      as [_ Hpix]; cbn [G.with_hover G.greyData G.colorData G.W G.H
                        G.hoverItemKey G.itemKeyToComps G.compIdAt];
      rewrite ?HW, ?HH, ?Hgr, ?Hco; try done.
    { intros ->. set_solver. }
    cbn [G.with_hover G.greyData G.colorData G.W G.H G.compIdAt] in Hpix.
    rewrite HW, HH, Hgr, Hco, Hids in Hpix.
    rewrite (Hpix p Hp). unfold selected. rewrite HM. split; intros HMc.
    + by rewrite bool_decide_eq_true_2.
    + by rewrite bool_decide_eq_false_2.
Qed.

(** C7 as the specification states it fails on the 5 x 1 sample.  The
    anchor [(0, 0)] of "skis" resolves to label 1 and the pointer on its
    pixel resolves to the key "skis", whose label set holds 1; but [redraw]
    with "skis" selected also repaints pixel 2, which carries label 2, and
    gives pixel 0 alpha 255 where the colour buffer has 128.  The anchor of
    the item whose key is the empty string resolves to label 3, which the
    table maps to that key, whose label set holds 3; but [redraw] takes the
    empty string for no selection and leaves pixel 4 as in the base
    buffer. *)
Lemma anchor_roundtrip_counterexample :
  G.compIdAt <$>
    buildComponentMap (G.with_images G.initial 5 1 stripGrey stripColor)
      stripGrey
    = Some (G.compIdAt namelessState) ∧
  (anchorPixel 5 1 (0, 0)%Q = (0, 0) ∧
   anchorId 5 1 (G.compIdAt namelessState) (0, 0)%Q = 1 ∧
   itemKeyAt namelessState
     (componentAtClientXY 5 1 (G.compIdAt namelessState) (mkRect 0 0 5 1) 0 0)
     = Some "skis" ∧
   (∃ comps, G.itemKeyToComps namelessState !! "skis" = Some comps ∧
             1 ∈ comps) ∧
   JS.get (G.compIdAt namelessState) 2 = Some 2 ∧
   rgba (G.canvas (redraw (G.with_hover namelessState (Some "skis")))) 2 ≠
     rgba (G.greyData namelessState) 2 ∧
   JS.get (G.compIdAt namelessState) 0 = Some 1 ∧
   rgba (G.canvas (redraw (G.with_hover namelessState (Some "skis")))) 0 ≠
     rgba (G.colorData namelessState) 0) ∧
  (anchorPixel 5 1 (0.9, 0)%Q = (4, 0) ∧
   anchorId 5 1 (G.compIdAt namelessState) (0.9, 0)%Q = 3 ∧
   G.compToItemKey namelessState !!
     componentAtClientXY 5 1 (G.compIdAt namelessState) (mkRect 0 0 5 1) 4 0
     = Some "" ∧
   (∃ comps, G.itemKeyToComps namelessState !! "" = Some comps ∧ 3 ∈ comps) ∧
   JS.get (G.compIdAt namelessState) 4 = Some 3 ∧
   rgba (G.canvas (redraw (G.with_hover namelessState (Some "")))) 4 =
     rgba (G.greyData namelessState) 4 ∧
   rgba (G.greyData namelessState) 4 ≠ rgba (G.colorData namelessState) 4).
Proof.
  split; [vm_compute; reflexivity|]. split.
  - split; [vm_compute; reflexivity|]. split; [vm_compute; reflexivity|].
    split; [vm_compute; reflexivity|]. split.
    { eexists. split; [vm_compute; reflexivity|]. by vm_compute. }
    split; [vm_compute; reflexivity|]. split; [vm_compute; discriminate|].
    split; [vm_compute; reflexivity|]. vm_compute; discriminate.
  - split; [vm_compute; reflexivity|]. split; [vm_compute; reflexivity|].
    split; [vm_compute; reflexivity|]. split.
    { eexists. split; [vm_compute; reflexivity|]. by vm_compute. }
    split; [vm_compute; reflexivity|]. split; [vm_compute; reflexivity|].
    vm_compute; discriminate.
Qed.

(** ** Pointer events and start-up *)

(** [redraw] writes the canvas and nothing else. *)
Lemma redraw_frame (g : G.t) :
  G.W (redraw g) = G.W g ∧ G.H (redraw g) = G.H g ∧
  G.greyData (redraw g) = G.greyData g ∧
  G.colorData (redraw g) = G.colorData g ∧
  G.compIdAt (redraw g) = G.compIdAt g ∧
  G.compCount (redraw g) = G.compCount g ∧
  G.hoverItemKey (redraw g) = G.hoverItemKey g.
Proof.
  unfold redraw. destruct (negb _); [done|].
  destruct (_ ≫= _); [|done]. by destruct (decide _).
Qed.

(** The listeners never store the empty string as the hovered key: the
    selection is [null] or a key that [redraw] takes as a selection. *)
Lemma hover_key_truthy (rect : Rect) (cx cy : Q) (g : G.t) :
  G.hoverItemKey g = None ∨ JS.truthy (G.hoverItemKey g) = true →
  (G.hoverItemKey (onMouseMove rect cx cy g) = None ∨
   JS.truthy (G.hoverItemKey (onMouseMove rect cx cy g)) = true) ∧
  G.hoverItemKey (onMouseLeave g) = None.
Proof.
  intros Hg. split.
  - unfold onMouseMove. destruct (decide _); [done|].
    destruct (redraw_frame (G.with_hover g
      (itemKeyAt g (componentAtClientXY (G.W g) (G.H g) (G.compIdAt g)
                      rect cx cy)))) as (_ & _ & _ & _ & _ & _ & ->).
    cbn [G.with_hover G.hoverItemKey]. unfold itemKeyAt.
    destruct (G.compToItemKey g !! _) as [k|]; [|by left].
    destruct (JS.truthy (Some k)) eqn:Hk; [by right|by left].
  - unfold onMouseLeave.
    by destruct (redraw_frame (G.with_hover g None))
      as (_ & _ & _ & _ & _ & _ & ->).
Qed.

(** A start-up that completes went through every step of the [try] block:
    both fetches and both loads succeeded, both images were read back at
    the grey image's size, the label array was allocated, the segmentation
    of the grey buffer returned, and the listeners were installed. *)
Lemma init_of_inr (items : list Item) (b : Browser) (g g' : G.t) :
  init_of items b g = Some (inr g') →
  ∃ greyI colorI grey color l n,
    let w := naturalWidth greyI in
    let h := naturalHeight greyI in
    greyOk b = true ∧ colorOk b = true ∧
    greyImg b = Some greyI ∧ colorImg b = Some colorI ∧
    drawImageToData b greyI w h = Some grey ∧
    drawImageToData b colorI w h = Some color ∧
    allocates b (w * h) = true ∧ listenersOk b = true ∧
    segment (Z.to_nat (w * h)) w h grey = Some (l, n) ∧
    g' = redraw (buildItemMappings_of items
                   (G.with_segmentation (G.with_images g w h grey color) l n)).
Proof.
  unfold init_of. destruct (greyOk b); [|done]. destruct (colorOk b); [|done].
  cbn [negb]. destruct (greyImg b) as [greyI|], (colorImg b) as [colorI|];
    [|done..].
  destruct (drawImageToData b greyI _ _) as [grey|] eqn:Hgrey; [|done].
  destruct (drawImageToData b colorI _ _) as [color|] eqn:Hcolor; [|done].
  cbv zeta. destruct (allocates b _) eqn:Halloc; [|done].
  unfold buildComponentMap, buildComponentMap_fuel.
  cbn [G.with_images G.W G.H G.greyData].
  destruct (segment _ _ _ grey) as [[l n]|] eqn:Hseg; [|done].
  destruct (listenersOk b); [|done]. intros [= <-].
  by exists greyI, colorI, grey, color, l, n.
Qed.

(** Conversely, these steps are all a start-up needs to complete. *)
Lemma init_of_completes (items : list Item) (b : Browser) (g : G.t)
  (greyI colorI : Image) (grey color : list Z) l n :
  let w := naturalWidth greyI in
  let h := naturalHeight greyI in
  greyOk b = true → colorOk b = true →
  greyImg b = Some greyI → colorImg b = Some colorI →
  drawImageToData b greyI w h = Some grey →
  drawImageToData b colorI w h = Some color →
  allocates b (w * h) = true → listenersOk b = true →
  segment (Z.to_nat (w * h)) w h grey = Some (l, n) →
  init_of items b g =
  Some (inr (redraw (buildItemMappings_of items
               (G.with_segmentation (G.with_images g w h grey color) l n)))).
Proof.
  intros w h Hgo Hco Hgi Hci Hgrey Hcolor Halloc Hls Hseg. unfold init_of.
  rewrite Hgo, Hco, Hgi, Hci. cbn [negb]. fold w h.
  rewrite Hgrey, Hcolor. cbv zeta. rewrite Halloc.
  unfold buildComponentMap, buildComponentMap_fuel.
  cbn [G.with_images G.W G.H G.greyData]. by rewrite Hseg, Hls.
Qed.

(** The segmentation returns for every image of positive size below 2^31
    pixels, so the start-up completes once the browser has delivered. *)
Lemma init_of_loaded (items : list Item) (b : Browser) (g : G.t)
  (greyI colorI : Image) (grey color : list Z) :
  greyOk b = true → colorOk b = true →
  greyImg b = Some greyI → colorImg b = Some colorI →
  0 < naturalWidth greyI → 0 < naturalHeight greyI →
  naturalWidth greyI * naturalHeight greyI < 2 ^ 31 →
  getImageData b greyI (naturalWidth greyI) (naturalHeight greyI) = Some grey →
  getImageData b colorI (naturalWidth greyI) (naturalHeight greyI)
    = Some color →
  allocates b (naturalWidth greyI * naturalHeight greyI) = true →
  listenersOk b = true →
  ∃ g', init_of items b g = Some (inr g') ∧
        G.greyData g' = grey ∧ G.colorData g' = color.
Proof.
  intros Hgo Hco Hgi Hci HW HH Hsize Hgrey Hcolor Halloc Hls.
  set (g1 := G.with_images g (naturalWidth greyI) (naturalHeight greyI)
               grey color).
  destruct (buildComponentMap_inv g1 grey) as (l & n & Hb & _);
    [cbn; lia..|done|].
  unfold buildComponentMap, buildComponentMap_fuel in Hb.
  cbn [g1 G.with_images G.W G.H] in Hb.
  destruct (segment _ _ _ grey) as [[l' n']|] eqn:Hseg; [|done].
  eexists. split.
  - apply (init_of_completes items b g greyI colorI grey color l' n');
      try done; unfold drawImageToData;
      by rewrite (proj2 (Z.leb_gt _ _) HW), (proj2 (Z.leb_gt _ _) HH).
  - pose proof (redraw_frame (buildItemMappings_of items
                  (G.with_segmentation g1 l' n'))) as (_ & _ & Hg & Hc & _).
    pose proof (buildItemMappings_of_frame items
                  (G.with_segmentation g1 l' n'))
      as (_ & _ & _ & Hg' & Hc' & _).
    subst g1. cbv zeta in *. by rewrite Hg, Hc, Hg', Hc'.
Qed.



(** ** The theorems on the sample inputs *)

(** In the 4 x 4 sample the black pixels at positions 1 and 4 carry label 1
    and are joined by foreground pixels, all of them labelled 1; the black
    pixels at positions 1 and 3 carry labels 1 and 2, so no sequence of
    foreground pixels joins them. *)
Lemma labels_are_4connected_components_witness :
  ∃ g', buildComponentMap sampleState sampleGrey = Some g' ∧
    G.compIdAt g' = [0; 1; 0; 2; 1; 1; 0; 0; 0; 0; 0; 3; 4; 0; 3; 3] ∧
    joined 4 4 sampleGrey 1 4 ∧ ¬ joined 4 4 sampleGrey 1 3 ∧
    ∃ ps, head ps = Some 1 ∧ last ps = Some 4 ∧ chain4 4 4 ps ∧
          Forall (λ x, labelled (G.compIdAt g') x 1) ps.
Proof.
  destruct (labels_are_4connected_components sampleState sampleGrey)
    as (g' & Hg & _ & _ & Hjoin & Hconn & _); [by vm_compute..|].
  exists g'. split; [exact Hg|].
  assert (G.compIdAt g' = [0; 1; 0; 2; 1; 1; 0; 0; 0; 0; 0; 3; 4; 0; 3; 3])
    as Hids.
  { vm_compute in Hg. injection Hg as <-. reflexivity. }
  split; [exact Hids|]. split; [|split].
  - apply (Hjoin 1 4). exists 1. rewrite Hids.
    split; [discriminate|]. split; reflexivity.
  - intros Hj. apply (Hjoin 1 3) in Hj as (L & _ & H1 & H3).
    rewrite Hids in H1, H3. vm_compute in H1, H3. congruence.
  - apply (Hconn 1 4 1); [discriminate|rewrite Hids; reflexivity..].
Defined.

(** In the 4 x 4 sample the black pixel at position 1 has a positive label
    and the white pixel at position 0 has label 0. *)
Lemma label_zero_iff_background_witness :
  ∃ g', buildComponentMap sampleState sampleGrey = Some g' ∧
    (JS.get (G.compIdAt g') 1 = Some 0 ↔ isForeground 0 0 0 = false) ∧
    (JS.get (G.compIdAt g') 0 = Some 0 ↔ isForeground 255 255 255 = false).
Proof.
  destruct (label_zero_iff_background sampleState sampleGrey)
    as (g' & Hg & Hlab); [by vm_compute..|].
  exists g'. split; [exact Hg|].
  assert (inGrid (G.W sampleState) (G.H sampleState) 1) as H1
    by (unfold inGrid; cbn; lia).
  assert (inGrid (G.W sampleState) (G.H sampleState) 0) as H0
    by (unfold inGrid; cbn; lia).
  destruct (Hlab 1 H1) as [_ Hblack].
  destruct (Hlab 0 H0) as [_ Hwhite].
  split.
  - apply (Hblack 0 0 0); by vm_compute.
  - apply (Hwhite 255 255 255); by vm_compute.
Defined.

(** In the 4 x 4 sample a second run stores the same label array; the four
    components are numbered 1 to 4, and their first pixels are the
    positions 1, 3, 11 and 12, in the order of their labels.  Position 14
    belongs to the component of position 11 and is not a first pixel. *)
Lemma labels_in_discovery_order_witness :
  ∃ g', buildComponentMap sampleState sampleGrey = Some g' ∧
    G.compIdAt g' = [0; 1; 0; 2; 1; 1; 0; 0; 0; 0; 0; 3; 4; 0; 3; 3] ∧
    G.compCount g' = 4 ∧
    (∃ g'', buildComponentMap g' sampleGrey = Some g'' ∧
            G.compIdAt g'' = G.compIdAt g') ∧
    (∀ s, s ∈ [1; 3; 11; 12] ↔ componentFirst 4 4 sampleGrey s) ∧
    joined 4 4 sampleGrey 11 14.
Proof.
  destruct (labels_in_discovery_order sampleState sampleGrey)
    as (g' & Hg & _ & Hagain & _ & (firsts & Hlen & Hmem & _ & Hlab) & _);
    [by vm_compute..|].
  exists g'. split; [exact Hg|].
  assert (G.compIdAt g' = [0; 1; 0; 2; 1; 1; 0; 0; 0; 0; 0; 3; 4; 0; 3; 3])
    as Hids.
  { vm_compute in Hg. injection Hg as <-. reflexivity. }
  assert (G.compCount g' = 4) as Hcount.
  { vm_compute in Hg. injection Hg as <-. reflexivity. }
  split; [exact Hids|]. split; [exact Hcount|]. split; [exact Hagain|].
  rewrite Hcount in Hlen.
  destruct firsts as [|a [|b [|c [|d [|e tl]]]]]; cbn [length] in Hlen;
    try lia.
  destruct (Hlab 0%nat a eq_refl) as [Ha _].
  destruct (Hlab 1%nat b eq_refl) as [Hb _].
  destruct (Hlab 2%nat c eq_refl) as [Hc Hthree].
  destruct (Hlab 3%nat d eq_refl) as [Hd _].
  rewrite Hids in Ha, Hb, Hc, Hd. vm_compute in Ha, Hb, Hc, Hd.
  injection Ha as <-. injection Hb as <-. injection Hc as <-.
  injection Hd as <-. split; [exact Hmem|].
  apply Hthree. rewrite Hids. reflexivity.
Defined.

(** With "skis" hovered in the 5 x 1 sample, pixel 2 (label 2, in the
    set) takes the colour buffer's pixel and pixel 1 (label 0) keeps the
    base buffer's. *)
Lemma redraw_composites_witness :
  rgba (G.canvas (redraw (G.with_hover pairState (Some "skis")))) 2 =
    (Some 70, Some 80, Some 90, Some 255) ∧
  rgba (G.canvas (redraw (G.with_hover pairState (Some "skis")))) 1 =
    (Some 255, Some 255, Some 255, Some 255).
Proof.
  destruct (redraw_composites (G.with_hover pairState (Some "skis")))
    as [_ Hsel]; [by vm_compute..|].
  specialize (Hsel "skis" {[1; 2]} eq_refl eq_refl).
  assert (G.itemKeyToComps (G.with_hover pairState (Some "skis")) !! "skis" =
          Some {[1; 2]}) as Hc by (by vm_compute).
  assert (({[1; 2]} : gset Z) ≠ ∅) as Hne by set_solver.
  split.
  - destruct (Hsel Hc Hne 2 2) as [Hin _]; [by vm_compute..|].
    rewrite Hin by set_solver. by vm_compute.
  - destruct (Hsel Hc Hne 1 0) as [_ Hout]; [by vm_compute..|].
    rewrite Hout by set_solver. by vm_compute.
Defined.

(** A key that the tables do not hold selects nothing. *)
Lemma redraw_without_labels_witness :
  G.canvas (redraw (G.with_hover pairState (Some "poles"))) = stripGrey.
Proof.
  apply (redraw_without_labels (G.with_hover pairState (Some "poles")) "poles").
  - reflexivity.
  - right. by vm_compute.
Defined.


(** The second anchor of "skis" in the 5 x 1 sample: its pixel carries
    label 2, the pointer on it is answered 2, and label 2 is mapped to a
    key whose set holds it. *)
Lemma anchor_roundtrip_witness :
  componentAtClientXY 5 1 [1; 0; 2; 0; 3] (mkRect 0 0 5 1) 2 0 = 2 ∧
  ∃ k comps,
    G.compToItemKey pairState !! 2 = Some k ∧
    G.itemKeyToComps pairState !! k = Some comps ∧
    2 ∈ comps.
Proof.
  destruct (anchor_roundtrip pairItems stripState
              (mkItem "skis" "Skis" [(0, 0); (0.5, 0)]%Q "Two parts.")
              (0.5, 0)%Q 2 0 2) as (Hhit & k & comps & Hk & _ & Hc & Hin & _).
  - apply NoDup_singleton.
  - intros i Hi%list_elem_of_singleton. by subst i.
  - reflexivity.
  - reflexivity.
  - apply list_elem_of_singleton. reflexivity.
  - right. apply list_elem_of_singleton. reflexivity.
  - vm_compute; reflexivity.
  - cbn; lia.
  - cbn; lia.
  - reflexivity.
  - lia.
  - split; [exact Hhit|]. by exists k, comps.
Defined.


(** * Further properties of the code *)

(** ** Foreground classifier *)

Lemma isForeground_ltb r g b : isForeground r g b = (r + g + b <? 735).
Proof.
  rewrite isForeground_sum.
  destruct (Z.ltb_spec (r + g + b) 735) as [Hlt|Hge];
    [|by rewrite andb_false_r].
  rewrite andb_true_r. apply negb_true_iff, not_true_is_false.
  rewrite !andb_true_iff, !Z.gtb_lt. lia.
Qed.

(** X1. The early return for near-white pixels never decides: the classifier
    is the brightness test alone, that is, the channel sum against 735. *)
Theorem isForeground_is_brightness_test (r g b : Z) :
  (isForeground r g b = true ↔ (brightness r g b < 245)%Q) ∧
  (isForeground r g b = true ↔ r + g + b < 735).
Proof.
  rewrite brightness_lt, isForeground_ltb. split; apply Z.ltb_lt.
Qed.

(** X2. A pixel that is no brighter in any channel than a foreground pixel is
    foreground. *)
Theorem isForeground_darker (r g b r' g' b' : Z) :
  r' ≤ r → g' ≤ g → b' ≤ b →
  isForeground r g b = true → isForeground r' g' b' = true.
Proof.
  intros Hr Hg Hb. rewrite !isForeground_ltb, !Z.ltb_lt. lia.
Qed.

Lemma isForeground_darker_witness : isForeground 100 240 250 = true.
Proof.
  apply (isForeground_darker 200 240 250 100 240 250); [lia..|].
  by vm_compute.
Defined.

(** ** Segmentation *)

(** X3. The label array has one entry for each pixel, the count is at most
    the number of pixels, and it is 0 exactly when the image has no
    foreground pixel, in which case every label is 0. *)
Theorem buildComponentMap_shape (g : G.t) (data : list Z) :
  0 ≤ G.W g → 0 ≤ G.H g → G.W g * G.H g < 2 ^ 31 →
  ∃ g', buildComponentMap g data = Some g' ∧
    length (G.compIdAt g') = Z.to_nat (G.W g * G.H g) ∧
    0 ≤ G.compCount g' ≤ G.W g * G.H g ∧
    (G.compCount g' = 0 ↔
       ∀ p, inGrid (G.W g) (G.H g) p → foregroundAt data p = false) ∧
    (G.compCount g' = 0 →
       G.compIdAt g' = replicate (Z.to_nat (G.W g * G.H g)) 0).
Proof.
  intros HW HH Hsize.
  destruct (buildComponentMap_inv g data HW HH Hsize) as (l & n & Hb & Hinv).
  eexists. split; [exact Hb|].
  cbn [G.with_segmentation G.compIdAt G.compCount].
  pose proof (inv_length _ _ _ _ _ _ _ Hinv) as Hlen.
  pose proof (inv_bounds _ _ _ _ _ _ _ Hinv) as Hbd.
  assert (n = 0 → ∀ p L, labelled l p L → L = 0) as Hzero.
  { intros -> p L HL. destruct (decide (L = 0)) as [|HL0]; [done|].
    destruct (inv_fg _ _ _ _ _ _ _ Hinv p L HL HL0). lia. }
  split; [done|]. split; [lia|]. split; [split|].
  - intros Hn p Hp. destruct (foregroundAt data p) eqn:Hfg; [|done].
    destruct (inv_scanned _ _ _ _ _ _ _ Hinv p) as (L & HL & HL0); [done..|].
    by destruct HL0; apply (Hzero Hn p).
  - intros Hbg. destruct (decide (n = 0)) as [|Hn]; [done|].
    destruct (inv_seed _ _ _ _ _ _ _ Hinv 1) as (s & Hs & HL); [lia|].
    destruct (inv_fg _ _ _ _ _ _ _ Hinv s 1 HL) as [Hfg _]; [done|].
    rewrite Hbg in Hfg; [done|]. unfold inGrid. lia.
  - intros Hn. apply list_eq. intros i.
    destruct (decide (i < length l)%nat) as [Hi|Hi].
    + rewrite lookup_replicate_2 by lia.
      destruct (lookup_lt_is_Some_2 l i Hi) as [L HL]. rewrite HL. f_equal.
      apply (Hzero Hn (Z.of_nat i)). unfold labelled, JS.get.
      destruct (Z.ltb_spec (Z.of_nat i) 0); [lia|]. by rewrite Nat2Z.id.
    + rewrite lookup_ge_None_2 by lia. symmetry.
      apply lookup_replicate_None. lia.
Qed.

Lemma buildComponentMap_shape_witness :
  ∃ g', buildComponentMap sampleState sampleGrey = Some g' ∧
    length (G.compIdAt g') = 16%nat ∧ 0 ≤ G.compCount g' ≤ 16.
Proof.
  destruct (buildComponentMap_shape sampleState sampleGrey)
    as (g' & Hg & Hlen & Hcount & _); [cbn; lia..|].
  exists g'. split; [exact Hg|]. split; [exact Hlen|exact Hcount].
Defined.

Lemma for_range_opt_ext {St} (body body' : Z → St → option St) n :
  ∀ lo s,
  (∀ i s', lo ≤ i < lo + Z.of_nat n → body i s' = body' i s') →
  JS.for_range_opt n lo body s = JS.for_range_opt n lo body' s.
Proof.
  induction n as [|n IH]; intros lo s Hext; [done|]. cbn [JS.for_range_opt].
  rewrite <- (Hext lo s) by lia. destruct (body lo s) as [s1|]; [|done].
  apply IH. intros i s' Hi. apply Hext. lia.
Qed.

Section SameColours.
Variables (W H : Z) (data data' : list Z).
Hypothesis Hsame : sameColours W H data data'.

Lemma foregroundAt_same p :
  inGrid W H p → foregroundAt data p = foregroundAt data' p.
Proof.
  intros Hp. unfold foregroundAt.
  pose proof (Hsame p 0 Hp ltac:(lia)) as H0. rewrite Z.add_0_r in H0.
  by rewrite H0, (Hsame p 1 Hp), (Hsame p 2 Hp) by lia.
Qed.

Lemma visit_same s n : visit W H data s n = visit W H data' s n.
Proof.
  destruct n as [nx ny]. unfold visit.
  destruct ((nx <? 0) || (nx >=? W) || (ny <? 0) || (ny >=? H)) eqn:Hb; [done|].
  apply bounds_test in Hb as [Hx Hy].
  destruct (idx_coords W H ltac:(lia) nx ny Hx Hy) as [Hg _].
  by rewrite (foregroundAt_same _ Hg).
Qed.

Lemma visits_same nbs s :
  fold_left (visit W H data) nbs s = fold_left (visit W H data') nbs s.
Proof.
  revert s. induction nbs as [|n nbs IH]; intros s; [done|].
  cbn [fold_left]. by rewrite visit_same, IH.
Qed.

Lemma flood_same fuel s : flood fuel W H data s = flood fuel W H data' s.
Proof.
  revert s. induction fuel as [|fuel IH]; intros s; cbn [flood];
    destruct (stack s) as [|q rest]; try done.
  by rewrite visits_same, IH.
Qed.

Lemma scanPixel_same fuel y x s :
  0 ≤ x < W → 0 ≤ y < H →
  scanPixel fuel W H data y x s = scanPixel fuel W H data' y x s.
Proof.
  intros Hx Hy. unfold scanPixel.
  destruct (idx_coords W H ltac:(lia) x y Hx Hy) as [Hg _].
  by rewrite (foregroundAt_same _ Hg), flood_same.
Qed.

Lemma segment_same fuel : segment fuel W H data = segment fuel W H data'.
Proof.
  unfold segment, scan. erewrite for_range_opt_ext; [done|].
  intros y s Hy. unfold scanRow. apply for_range_opt_ext.
  intros x s' Hx. apply scanPixel_same; lia.
Qed.

End SameColours.

(** X4. The segmentation reads the red, green and blue of the pixels of the
    image and nothing else: two buffers that agree on them, whatever their
    alpha channels, give the same label array and count. *)
Theorem buildComponentMap_ignores_alpha (g : G.t) (data data' : list Z) :
  sameColours (G.W g) (G.H g) data data' →
  buildComponentMap g data = buildComponentMap g data'.
Proof.
  intros Hsame. unfold buildComponentMap, buildComponentMap_fuel.
  by rewrite (segment_same _ _ data data' Hsame).
Qed.

(** The 2 x 2 sample made fully transparent is segmented as before. *)
Lemma buildComponentMap_ignores_alpha_witness :
  buildComponentMap edgeState edgeGrey =
  buildComponentMap edgeState
    [255; 255; 255; 0; 255; 255; 255; 0; 0; 0; 0; 0; 255; 255; 255; 0].
Proof.
  apply buildComponentMap_ignores_alpha.
  intros p k [Hp0 Hp1] Hk. cbn in Hp1.
  assert (p = 0 ∨ p = 1 ∨ p = 2 ∨ p = 3) as Hp by lia.
  assert (k = 0 ∨ k = 1 ∨ k = 2) as Hk' by lia.
  destruct Hp as [Hp|[Hp|[Hp|Hp]]]; destruct Hk' as [Hk'|[Hk'|Hk']];
    subst p k; reflexivity.
Defined.

(** ** Anchors *)

(** X9. The label set of an item depends on which anchors it has, not on
    their order or on repetitions. *)
Theorem anchorSet_same_anchors (W H : Z) (ids : list Z)
  (pts pts' : list (Q * Q)) :
  (∀ pt, pt ∈ pts ↔ pt ∈ pts') →
  anchorSet W H ids pts = anchorSet W H ids pts'.
Proof.
  intros Hsame. apply set_eq. intros id. rewrite !elem_of_anchorSet.
  split; intros (Hid & pt & Hpt & Heq); (split; [done|]); exists pt;
    (split; [by apply Hsame|done]).
Qed.

Lemma anchorSet_same_anchors_witness :
  anchorSet 5 1 [1; 0; 2; 0; 3] [(0, 0); (0.5, 0)]%Q =
  anchorSet 5 1 [1; 0; 2; 0; 3] [(0.5, 0); (0, 0); (0.5, 0)]%Q.
Proof.
  apply anchorSet_same_anchors. intros pt.
  rewrite !elem_of_cons, !elem_of_nil. tauto.
Defined.

(** ** Item tables *)

Lemma last_filter_snoc {A} (P : A → Prop) `{∀ x, Decision (P x)}
  (l : list A) (x : A) :
  last (filter P (l ++ [x])) = if decide (P x) then Some x else last (filter P l).
Proof.
  rewrite filter_app. destruct (decide (P x)) as [HP|HP].
  - rewrite (filter_cons_True P x []) by done. apply last_snoc.
  - rewrite (filter_cons_False P x []) by done. by rewrite app_nil_r.
Qed.

Lemma last_filter_elem {A} (P : A → Prop) `{∀ x, Decision (P x)}
  (l : list A) (x : A) :
  last (filter P l) = Some x → x ∈ l ∧ P x.
Proof. intros Hl%last_Some_elem_of. by apply list_elem_of_filter in Hl as [? ?]. Qed.

Lemma last_filter_None {A} (P : A → Prop) `{∀ x, Decision (P x)} (l : list A) :
  last (filter P l) = None ↔ ∀ x, x ∈ l → ¬ P x.
Proof.
  rewrite last_None. split.
  - intros Hnil x Hx HP.
    assert (x ∈ filter P l) as Hin by (by apply list_elem_of_filter).
    rewrite Hnil in Hin. by apply elem_of_nil in Hin.
  - intros Hno. destruct (filter P l) as [|y l'] eqn:Hf; [done|].
    assert (y ∈ filter P l) as Hy by (rewrite Hf; left).
    apply list_elem_of_filter in Hy as [HP Hy]. by destruct (Hno y).
Qed.

Lemma filter_none {A} (P : A → Prop) `{∀ x, Decision (P x)} (l : list A) :
  (∀ x, x ∈ l → ¬ P x) → filter P l = [].
Proof. intros Hno. by apply last_None, last_filter_None. Qed.

(** Each of the three tables holds, for a label or a key, what the last
    item of the catalog that writes it wrote, and what it held before where
    no item writes. *)
Lemma mapItems_last (items : list Item) (g0 : G.t) :
  let g' := fold_left mapItem items g0 in
  (∀ L, G.compToItemKey g' !! L =
        match last (filter (λ it, L ∈ labelsOf g0 it) items) with
        | Some it => Some (key it)
        | None => G.compToItemKey g0 !! L
        end) ∧
  (∀ k, G.itemKeyToComps g' !! k =
        match last (filter (λ it, key it = k) items) with
        | Some it => Some (labelsOf g0 it)
        | None => G.itemKeyToComps g0 !! k
        end) ∧
  (∀ k, G.itemKeyToInfo g' !! k =
        match last (filter (λ it, key it = k) items) with
        | Some it => Some (title it, message it)
        | None => G.itemKeyToInfo g0 !! k
        end).
Proof.
  induction items as [|x items IH] using rev_ind; cbn zeta; [done|].
  cbn zeta in IH. destruct IH as (Hkeys & Hcomps & Hinfo).
  destruct (mapItems_tables items g0) as ((HW & HH & Hids & _) & _).
  cbn zeta in HW, HH, Hids.
  rewrite fold_left_app. cbn [fold_left].
  set (g1 := fold_left mapItem items g0) in *.
  unfold mapItem.
  cbn [G.with_tables G.compToItemKey G.itemKeyToComps G.itemKeyToInfo].
  rewrite HW, HH, Hids. fold (labelsOf g0 x).
  split; [|split].
  - intros L. rewrite set_fold_insert_lookup, last_filter_snoc.
    destruct (decide (L ∈ labelsOf g0 x)); [done|apply Hkeys].
  - intros k. rewrite last_filter_snoc. destruct (decide (key x = k)) as [<-|Hne].
    + by rewrite lookup_insert_eq.
    + rewrite lookup_insert_ne by done. apply Hcomps.
  - intros k. rewrite last_filter_snoc. destruct (decide (key x = k)) as [<-|Hne].
    + by rewrite lookup_insert_eq.
    + rewrite lookup_insert_ne by done. apply Hinfo.
Qed.

Lemma filter_key_unique (items : list Item) (it : Item) :
  NoDup (key <$> items) → it ∈ items →
  filter (λ x, key x = key it) items = [it].
Proof.
  induction items as [|x items IH]; intros Hnd Hit.
  - by apply elem_of_nil in Hit.
  - rewrite fmap_cons in Hnd. apply NoDup_cons in Hnd as [Hx Hnd].
    apply elem_of_cons in Hit as [->|Hit].
    + rewrite filter_cons_True by done. f_equal.
      apply filter_none. intros y Hy Hk. apply Hx.
      rewrite <- Hk. by apply list_elem_of_fmap_2.
    + rewrite filter_cons_False; [by apply IH|].
      intros Hk. apply Hx. rewrite Hk. by apply list_elem_of_fmap_2.
Qed.

Lemma labelsOf_not_zero (g : G.t) (it : Item) : 0 ∉ labelsOf g it.
Proof. unfold labelsOf. rewrite elem_of_anchorSet. tauto. Qed.

(** X10. When several items hold a label, the label-to-item table maps it to
    the key of the last of them in catalog order. *)
Theorem last_item_wins (g : G.t) (pre post : list Item) (it : Item) (L : Z) :
  L ∈ labelsOf g it → (∀ it', it' ∈ post → L ∉ labelsOf g it') →
  G.compToItemKey (buildItemMappings_of (pre ++ it :: post) g) !! L
    = Some (key it).
Proof.
  intros Hin Hpost.
  destruct (mapItems_last (pre ++ it :: post) (G.with_tables g ∅ ∅ ∅))
    as (Hkeys & _).
  unfold buildItemMappings_of. rewrite Hkeys.
  change (labelsOf (G.with_tables g ∅ ∅ ∅)) with (labelsOf g).
  replace (pre ++ it :: post) with ((pre ++ [it]) ++ post)
    by (by rewrite <- app_assoc).
  rewrite filter_app, (filter_none _ post), app_nil_r.
  - by rewrite last_filter_snoc, decide_True.
  - intros y Hy Hpy. by apply (Hpost y).
Qed.

(** In the 5 x 1 sample with a second item anchored on the first pixel,
    label 1 goes to the second item. *)
Lemma last_item_wins_witness :
  G.compToItemKey
    (buildItemMappings_of
       ([mkItem "skis" "Skis" [(0, 0); (0.5, 0)]%Q "Two parts."]
        ++ mkItem "tip" "Tip" [(0, 0)%Q] "The same first anchor." :: [])
       stripState) !! 1
  = Some "tip".
Proof.
  apply (last_item_wins stripState
           [mkItem "skis" "Skis" [(0, 0); (0.5, 0)]%Q "Two parts."] []
           (mkItem "tip" "Tip" [(0, 0)%Q] "The same first anchor.") 1).
  - apply (bool_decide_unpack _). vm_compute. reflexivity.
  - intros it' Hin. by apply elem_of_nil in Hin.
Defined.

(** X11. The tables [buildItemMappings] builds fit together, whatever the
    catalog and the tables before.  Label 0 is mapped to no key and is in
    no label set.  A label is mapped exactly when some item holds it, and
    then to the key of an item that holds it.  The keys of the two other
    tables are the keys of the catalog, and the label set stored for a key
    is the label set of an item with that key. *)
Theorem tables_well_formed (items : list Item) (g : G.t) :
  let g' := buildItemMappings_of items g in
  G.compToItemKey g' !! 0 = None ∧
  (∀ L, is_Some (G.compToItemKey g' !! L) ↔
        ∃ it, it ∈ items ∧ L ∈ labelsOf g it) ∧
  (∀ L k, G.compToItemKey g' !! L = Some k →
     L ≠ 0 ∧ (∃ it, it ∈ items ∧ key it = k ∧ L ∈ labelsOf g it) ∧
     is_Some (G.itemKeyToComps g' !! k) ∧ is_Some (G.itemKeyToInfo g' !! k)) ∧
  (∀ k, is_Some (G.itemKeyToComps g' !! k) ↔ k ∈ key <$> items) ∧
  (∀ k, is_Some (G.itemKeyToInfo g' !! k) ↔ k ∈ key <$> items) ∧
  (∀ k comps, G.itemKeyToComps g' !! k = Some comps →
     (0 ∉ comps) ∧ (∃ it, it ∈ items ∧ key it = k ∧ comps = labelsOf g it)).
Proof.
  cbn zeta.
  destruct (mapItems_last items (G.with_tables g ∅ ∅ ∅))
    as (Hkeys & Hcomps & Hinfo). cbn zeta in Hkeys, Hcomps, Hinfo.
  change (labelsOf (G.with_tables g ∅ ∅ ∅)) with (labelsOf g) in *.
  fold (buildItemMappings_of items g) in Hkeys, Hcomps, Hinfo.
  cbn [G.with_tables G.compToItemKey G.itemKeyToComps G.itemKeyToInfo]
    in Hkeys, Hcomps, Hinfo.
  assert (∀ k, is_Some (last (filter (λ it, key it = k) items)) ↔
               k ∈ key <$> items) as Hdom.
  { intros k. split.
    - intros [it [Hit Hk]%last_filter_elem]. rewrite <- Hk.
      by apply list_elem_of_fmap_2.
    - intros (it & -> & Hit)%list_elem_of_fmap.
      destruct (last (filter _ items)) as [it'|] eqn:Hl; [done|].
      by destruct (proj1 (last_filter_None _ _) Hl it Hit). }
  assert (∀ L k, G.compToItemKey (buildItemMappings_of items g) !! L = Some k →
            ∃ it, it ∈ items ∧ key it = k ∧ L ∈ labelsOf g it) as Hholder.
  { intros L k. rewrite Hkeys.
    destruct (last (filter _ items)) as [it|] eqn:Hl;
      [|intros Hk; by rewrite lookup_empty in Hk].
    intros [= <-]. apply last_filter_elem in Hl as [Hit HL]. by exists it. }
  split; [|split; [|split; [|split; [|split]]]].
  - rewrite Hkeys. destruct (last (filter _ items)) as [it|] eqn:Hl;
      [|apply lookup_empty].
    apply last_filter_elem in Hl as [_ H0]. by apply labelsOf_not_zero in H0.
  - intros L. split.
    + intros [k (it & Hit & _ & HL)%Hholder]. by exists it.
    + intros (it & Hit & HL). rewrite Hkeys.
      destruct (last (filter _ items)) as [it'|] eqn:Hl; [done|].
      by destruct (proj1 (last_filter_None _ _) Hl it Hit).
  - intros L k Hk. destruct (Hholder L k Hk) as (it & Hit & <- & HL).
    split; [intros ->; by apply labelsOf_not_zero in HL|].
    split; [by exists it|].
    rewrite Hcomps, Hinfo.
    assert (is_Some (last (filter (λ x, key x = key it) items))) as [it' ->].
    { apply Hdom. by apply list_elem_of_fmap_2. }
    done.
  - intros k. rewrite Hcomps, <- Hdom.
    destruct (last (filter _ items)); [done|]. by rewrite lookup_empty.
  - intros k. rewrite Hinfo, <- Hdom.
    destruct (last (filter _ items)); [done|]. by rewrite lookup_empty.
  - intros k comps. rewrite Hcomps.
    destruct (last (filter _ items)) as [it|] eqn:Hl; [|by rewrite lookup_empty].
    intros [= <-]. apply last_filter_elem in Hl as [Hit Hk].
    split; [apply labelsOf_not_zero|by exists it].
Qed.

(** X12. An item whose anchors all read 0 (background, or past the end of the
    array) gets the empty label set; with distinct keys no label is mapped
    to its key, so no pointer position makes it the hovered item. *)
Theorem item_on_background_is_inert (items : list Item) (g : G.t) (it : Item) :
  NoDup (key <$> items) → it ∈ items →
  (∀ pt, pt ∈ pts it → anchorId (G.W g) (G.H g) (G.compIdAt g) pt = 0) →
  let g' := buildItemMappings_of items g in
  G.itemKeyToComps g' !! key it = Some ∅ ∧
  (∀ L, G.compToItemKey g' !! L ≠ Some (key it)) ∧
  (∀ rect cx cy h,
     G.hoverItemKey (onMouseMove rect cx cy (G.with_hover g' h))
       ≠ Some (key it)).
Proof.
  intros Hnd Hit Hbg. cbn zeta.
  assert (labelsOf g it = ∅) as Hempty.
  { apply set_eq. intros L. unfold labelsOf. rewrite elem_of_anchorSet.
    split; [|set_solver]. intros (HL & pt & Hpt & Hid).
    rewrite (Hbg pt Hpt) in Hid. by destruct HL. }
  destruct (mapItems_last items (G.with_tables g ∅ ∅ ∅))
    as (Hkeys & Hcomps & _). cbn zeta in Hkeys, Hcomps.
  change (labelsOf (G.with_tables g ∅ ∅ ∅)) with (labelsOf g) in *.
  fold (buildItemMappings_of items g) in Hkeys, Hcomps.
  cbn [G.with_tables G.compToItemKey G.itemKeyToComps] in Hkeys, Hcomps.
  assert (∀ L, G.compToItemKey (buildItemMappings_of items g) !! L
               ≠ Some (key it)) as Hno.
  { intros L. rewrite Hkeys.
    destruct (last (filter _ items)) as [it'|] eqn:Hl; [|by rewrite lookup_empty].
    intros [= Hk]. apply last_filter_elem in Hl as [Hit' HL].
    assert (it' ∈ filter (λ x, key x = key it) items) as Hin
      by (by apply list_elem_of_filter).
    rewrite (filter_key_unique items it Hnd Hit) in Hin.
    apply list_elem_of_singleton in Hin as ->. rewrite Hempty in HL.
    by apply not_elem_of_empty in HL. }
  split; [|split; [done|]].
  - rewrite Hcomps, (filter_key_unique items it Hnd Hit). cbn [last].
    by rewrite Hempty.
  - intros rect cx cy h. unfold onMouseMove.
    cbn [G.with_hover G.hoverItemKey G.W G.H G.compIdAt].
    assert (∀ L, itemKeyAt (G.with_hover (buildItemMappings_of items g) h) L
                 ≠ Some (key it)) as Hat.
    { intros L. unfold itemKeyAt. cbn [G.with_hover G.compToItemKey].
      destruct (_ !! L) as [k|] eqn:Hk; [|done].
      destruct (JS.truthy (Some k)); [|done]. intros [= ->]. by apply (Hno L). }
    destruct (decide _) as [Heq|Hne].
    + cbn [G.with_hover G.hoverItemKey]. rewrite <- Heq. apply Hat.
    + destruct (redraw_frame (G.with_hover
        (G.with_hover (buildItemMappings_of items g) h)
        (itemKeyAt (G.with_hover (buildItemMappings_of items g) h)
           (componentAtClientXY (G.W (buildItemMappings_of items g))
              (G.H (buildItemMappings_of items g))
              (G.compIdAt (buildItemMappings_of items g)) rect cx cy))))
        as (_ & _ & _ & _ & _ & _ & ->).
      cbn [G.with_hover G.hoverItemKey]. apply Hat.
Qed.

(** An item anchored on the white second pixel of the 5 x 1 sample. *)
Lemma item_on_background_is_inert_witness :
  G.itemKeyToComps
    (buildItemMappings_of
       (pairItems ++ [mkItem "snow" "Snow" [(0.3, 0)%Q] "On the background."])
       stripState) !! "snow" = Some ∅.
Proof.
  apply (item_on_background_is_inert
           (pairItems ++ [mkItem "snow" "Snow" [(0.3, 0)%Q] "On the background."])
           stripState
           (mkItem "snow" "Snow" [(0.3, 0)%Q] "On the background.")).
  - apply (bool_decide_unpack _). vm_compute. reflexivity.
  - apply elem_of_app. right. apply list_elem_of_singleton. reflexivity.
  - intros pt Hpt%list_elem_of_singleton. subst pt. vm_compute. reflexivity.
Defined.

(** ** Dialog *)

(** X13. After [buildItemMappings] on a catalog with distinct, non-empty keys, a
    click on a pixel whose label is mapped to an item shows the dialog
    with that item's title and message, and a click anywhere else (on the
    background, outside the image, on a component of no item) leaves the
    dialog as it is. *)
Theorem click_shows_item_details (items : list Item) (g : G.t) (rect : Rect)
  (cx cy : Q) (m : Modal) :
  NoDup (key <$> items) → (∀ i, i ∈ items → key i ≠ "") →
  let g' := buildItemMappings_of items g in
  let L := componentAtClientXY (G.W g') (G.H g') (G.compIdAt g') rect cx cy in
  (∀ it, it ∈ items → L ∈ labelsOf g it →
     ∃ it', it' ∈ items ∧ L ∈ labelsOf g it' ∧
       G.compToItemKey g' !! L = Some (key it') ∧
       onCanvasClick rect cx cy g' m = mkModal (title it') (message it') false) ∧
  ((∀ it, it ∈ items → L ∉ labelsOf g it) →
     onCanvasClick rect cx cy g' m = m) ∧
  (L = 0 → onCanvasClick rect cx cy g' m = m).
Proof.
  intros Hnd Hkeys. cbn zeta.
  destruct (mapItems_last items (G.with_tables g ∅ ∅ ∅))
    as (Hk & _ & Hinfo). cbn zeta in Hk, Hinfo.
  change (labelsOf (G.with_tables g ∅ ∅ ∅)) with (labelsOf g) in *.
  fold (buildItemMappings_of items g) in Hk, Hinfo.
  cbn [G.with_tables G.compToItemKey G.itemKeyToInfo] in Hk, Hinfo.
  set (g' := buildItemMappings_of items g) in *.
  set (L := componentAtClientXY (G.W g') (G.H g') (G.compIdAt g') rect cx cy).
  assert ((∀ it, it ∈ items → L ∉ labelsOf g it) →
          onCanvasClick rect cx cy g' m = m) as Hnone.
  { intros Hno. unfold onCanvasClick. fold L. rewrite Hk.
    rewrite (proj2 (last_filter_None _ _)); [by rewrite lookup_empty|].
    intros it Hit. by apply Hno. }
  split; [|split; [done|]].
  - intros it Hit HL.
    destruct (last (filter (λ x, L ∈ labelsOf g x) items)) as [it'|] eqn:Hl.
    + pose proof Hl as [Hit' HL']%last_filter_elem.
      exists it'. split; [done|]. split; [done|].
      assert (G.compToItemKey g' !! L = Some (key it')) as Hmap
        by (by rewrite Hk, Hl).
      split; [done|]. unfold onCanvasClick. fold L. rewrite Hmap.
      rewrite (proj2 (truthy_Some (key it')) (Hkeys it' Hit')).
      unfold openModal. rewrite Hinfo.
      by rewrite (filter_key_unique items it' Hnd Hit').
    + by destruct (proj1 (last_filter_None _ _) Hl it Hit).
  - intros HL0. apply Hnone. intros it Hit. rewrite HL0.
    apply labelsOf_not_zero.
Qed.

(** A click on the third pixel of the 5 x 1 sample, in a hidden dialog. *)
Lemma click_shows_item_details_witness :
  onCanvasClick (mkRect 0 0 5 1) 2 0 pairState (mkModal "" "" true) =
  mkModal "Skis" "Two parts." false.
Proof.
  destruct (click_shows_item_details pairItems stripState (mkRect 0 0 5 1)
              2 0 (mkModal "" "" true)) as (Hshow & _).
  - apply NoDup_singleton.
  - intros i Hi%list_elem_of_singleton. by subst i.
  - destruct (Hshow (mkItem "skis" "Skis" [(0, 0); (0.5, 0)]%Q "Two parts."))
      as (it' & Hit' & _ & _ & Hclick).
    + apply list_elem_of_singleton. reflexivity.
    + apply (bool_decide_unpack _). vm_compute. reflexivity.
    + apply list_elem_of_singleton in Hit'. subst it'. exact Hclick.
Defined.

(** ** Compositor and pointer events *)

Lemma redraw_with_canvas (g : G.t) (c : list Z) :
  redraw (G.with_canvas g c) = redraw g.
Proof. by destruct g. Qed.

Lemma redraw_as_with_canvas (g : G.t) :
  redraw g = G.with_canvas g (G.canvas (redraw g)).
Proof.
  unfold redraw. destruct (negb _); [by destruct g|].
  destruct (_ ≫= _); [|by destruct g].
  destruct (decide _); by destruct g.
Qed.

Lemma redraw_redraw (g : G.t) : redraw (redraw g) = redraw g.
Proof. rewrite (redraw_as_with_canvas g) at 1. apply redraw_with_canvas. Qed.

(** X14. [redraw] starts from the grey buffer each time: what the canvas held
    before plays no part, and a second call changes nothing. *)
Theorem redraw_idempotent (g : G.t) :
  (∀ c, redraw (G.with_canvas g c) = redraw g) ∧
  redraw (redraw g) = redraw g.
Proof. split; [apply redraw_with_canvas|apply redraw_redraw]. Qed.

Lemma onMouseMove_hover (rect : Rect) (cx cy : Q) (g : G.t) :
  G.hoverItemKey (onMouseMove rect cx cy g) =
  itemKeyAt g
    (componentAtClientXY (G.W g) (G.H g) (G.compIdAt g) rect cx cy).
Proof.
  unfold onMouseMove. destruct (decide _) as [Heq|Hne]; [done|].
  by destruct (redraw_frame (G.with_hover g
    (itemKeyAt g (componentAtClientXY (G.W g) (G.H g) (G.compIdAt g)
                    rect cx cy)))) as (_ & _ & _ & _ & _ & _ & ->).
Qed.

Lemma onMouseMove_synced (rect : Rect) (cx cy : Q) (g : G.t) :
  synced g → synced (onMouseMove rect cx cy g).
Proof.
  intros Hs. unfold onMouseMove. destruct (decide _); [done|].
  unfold synced. by rewrite redraw_redraw.
Qed.

(** X15. The pointer listeners keep the canvas in step with the hovered key.
    If the canvas shows what [redraw] draws for the state, it still does
    after a mouse move, although the listener redraws only when the key
    changes; the hovered key is then the key of the component under the
    pointer, or [null]; and the tables and the label array are untouched. *)
Theorem mouse_move_keeps_canvas_in_step (rect : Rect) (cx cy : Q) (g : G.t) :
  synced g →
  let g' := onMouseMove rect cx cy g in
  synced g' ∧
  G.hoverItemKey g' =
    itemKeyAt g (componentAtClientXY (G.W g) (G.H g) (G.compIdAt g) rect cx cy) ∧
  G.compIdAt g' = G.compIdAt g ∧ G.compToItemKey g' = G.compToItemKey g ∧
  G.itemKeyToComps g' = G.itemKeyToComps g.
Proof.
  intros Hs. cbn zeta. split; [by apply onMouseMove_synced|].
  split; [apply onMouseMove_hover|].
  unfold onMouseMove. destruct (decide _); [done|].
  rewrite redraw_as_with_canvas. done.
Qed.

(** From the 5 x 1 sample drawn with nothing hovered, a move onto the
    third pixel hovers "skis". *)
Lemma mouse_move_keeps_canvas_in_step_witness :
  G.hoverItemKey (onMouseMove (mkRect 0 0 5 1) 2 0 (redraw pairState))
    = Some "skis" ∧
  synced (onMouseMove (mkRect 0 0 5 1) 2 0 (redraw pairState)).
Proof.
  destruct (mouse_move_keeps_canvas_in_step (mkRect 0 0 5 1) 2 0
              (redraw pairState)) as (Hs & Hh & _).
  - unfold synced. by rewrite redraw_redraw.
  - split; [|exact Hs]. rewrite Hh. vm_compute. reflexivity.
Defined.

(** X16. Moving the pointer off the drawing clears the highlight.  In a state
    where label 0 is mapped to no item (as after [buildItemMappings]) and
    the canvas is in step, a mouse move that the hit test answers with 0
    (outside the image, or on the background) leaves no hovered key and
    the grey buffer on the canvas; so does the pointer leaving the canvas,
    from any state. *)
Theorem pointer_off_drawing_clears_highlight (rect : Rect) (cx cy : Q)
  (g : G.t) :
  G.compToItemKey g !! 0 = None → synced g →
  componentAtClientXY (G.W g) (G.H g) (G.compIdAt g) rect cx cy = 0 →
  (G.hoverItemKey (onMouseMove rect cx cy g) = None ∧
   G.canvas (onMouseMove rect cx cy g) = G.greyData g) ∧
  (∀ g1, G.hoverItemKey (onMouseLeave g1) = None ∧
         G.canvas (onMouseLeave g1) = G.greyData g1).
Proof.
  intros H0 Hs Hhit. split.
  - pose proof (onMouseMove_hover rect cx cy g) as Hh.
    rewrite Hhit in Hh. unfold itemKeyAt in Hh. rewrite H0 in Hh.
    split; [done|].
    pose proof (onMouseMove_synced rect cx cy g Hs) as Hs'.
    unfold synced in Hs'. rewrite Hs'.
    rewrite redraw_early by (left; by rewrite Hh).
    unfold onMouseMove. destruct (decide _); [done|].
    by destruct (redraw_frame (G.with_hover g
      (itemKeyAt g (componentAtClientXY (G.W g) (G.H g) (G.compIdAt g)
                      rect cx cy)))) as (_ & _ & -> & _).
  - intros g1. unfold onMouseLeave. split.
    + by destruct (redraw_frame (G.with_hover g1 None))
        as (_ & _ & _ & _ & _ & _ & ->).
    + by rewrite redraw_early by (by left).
Qed.

(** From "skis" hovered in the 5 x 1 sample, a move left of the canvas. *)
Lemma pointer_off_drawing_clears_highlight_witness :
  G.hoverItemKey
    (onMouseMove (mkRect 0 0 5 1) (-1) 0
       (redraw (G.with_hover pairState (Some "skis")))) = None ∧
  G.canvas
    (onMouseMove (mkRect 0 0 5 1) (-1) 0
       (redraw (G.with_hover pairState (Some "skis")))) = stripGrey.
Proof.
  apply (pointer_off_drawing_clears_highlight (mkRect 0 0 5 1) (-1) 0
           (redraw (G.with_hover pairState (Some "skis")))).
  - vm_compute. reflexivity.
  - unfold synced. by rewrite redraw_redraw.
  - vm_compute. reflexivity.
Defined.

Lemma redraw_unselected (g : G.t) (p : Z) :
  length (G.greyData g) = Z.to_nat (G.W g * G.H g * 4) →
  0 ≤ p < G.W g * G.H g →
  (∀ k comps, G.hoverItemKey g = Some k →
     G.itemKeyToComps g !! k = Some comps →
     selected comps (G.compIdAt g) p = false) →
  rgba (G.canvas (redraw g)) p = rgba (G.greyData g) p.
Proof.
  intros Hgrey Hp Hsel. unfold redraw.
  destruct (negb _); [done|].
  destruct (G.hoverItemKey g) as [k|]; [|done]. cbn [mbind option_bind].
  destruct (G.itemKeyToComps g !! k) as [comps|] eqn:Hc; [|done].
  destruct (decide _); [done|]. cbn [G.with_canvas G.canvas].
  destruct (recolor_loop comps (G.compIdAt g) (G.colorData g)
              (Z.to_nat (G.W g * G.H g)) 0 (G.greyData g)) as [_ Hget];
    [lia|rewrite Hgrey; lia|].
  unfold rgba. rewrite !Hget.
  pose proof (pixel_index p) as Hdm.
  destruct (Hdm 0) as [Hd0 _]; [lia|]. rewrite Z.add_0_r in Hd0.
  destruct (Hdm 1) as [Hd1 _]; [lia|].
  destruct (Hdm 2) as [Hd2 _]; [lia|].
  destruct (Hdm 3) as [Hd3 _]; [lia|].
  rewrite Hd0, Hd1, Hd2, Hd3, (Hsel k comps eq_refl Hc).
  by rewrite andb_false_r.
Qed.

(** X17. Background pixels are never repainted: after [buildItemMappings],
    whatever key is hovered, [redraw] leaves every pixel of label 0 as in
    the grey buffer. *)
Theorem background_never_repainted (items : list Item) (g : G.t)
  (h : option string) (p : Z) :
  length (G.greyData g) = Z.to_nat (G.W g * G.H g * 4) →
  0 ≤ p < G.W g * G.H g → JS.get (G.compIdAt g) p = Some 0 →
  rgba (G.canvas (redraw (G.with_hover (buildItemMappings_of items g) h))) p
  = rgba (G.greyData g) p.
Proof.
  intros Hgrey Hp Hbg.
  destruct (buildItemMappings_of_frame items g)
    as (HW & HH & Hids & Hgr & _).
  destruct (mapItems_last items (G.with_tables g ∅ ∅ ∅)) as (_ & Hcomps & _).
  cbn zeta in Hcomps. fold (buildItemMappings_of items g) in Hcomps.
  cbn [G.with_tables G.itemKeyToComps] in Hcomps.
  rewrite <- Hgr.
  apply (redraw_unselected (G.with_hover (buildItemMappings_of items g) h));
    cbn [G.with_hover G.greyData G.W G.H G.compIdAt G.hoverItemKey
         G.itemKeyToComps]; rewrite ?HW, ?HH, ?Hgr, ?Hids; try done.
  intros k comps _. rewrite Hcomps.
  destruct (last (filter _ items)) as [it|];
    [|intros Hk; by rewrite lookup_empty in Hk].
  intros [= <-]. unfold selected. rewrite Hbg.
  apply bool_decide_eq_false_2, labelsOf_not_zero.
Qed.

(** The white second pixel of the 5 x 1 sample with "skis" hovered. *)
Lemma background_never_repainted_witness :
  rgba (G.canvas (redraw (G.with_hover pairState (Some "skis")))) 1
  = (Some 255, Some 255, Some 255, Some 255).
Proof.
  unfold pairState.
  rewrite (background_never_repainted pairItems stripState (Some "skis") 1);
    [vm_compute; reflexivity..|cbn; lia|vm_compute; reflexivity].
Defined.

Lemma buildItemMappings_of_compCount (items : list Item) (g : G.t) :
  G.compCount (buildItemMappings_of items g) = G.compCount g.
Proof.
  unfold buildItemMappings_of.
  change (G.compCount g) with (G.compCount (G.with_tables g ∅ ∅ ∅)).
  generalize (G.with_tables g ∅ ∅ ∅). clear g.
  induction items as [|x items IH]; intros g; [done|].
  cbn [fold_left]. by rewrite IH.
Qed.

Lemma tables_zero_unmapped (items : list Item) (g : G.t) :
  G.compToItemKey (buildItemMappings_of items g) !! 0 = None.
Proof.
  destruct (mapItems_last items (G.with_tables g ∅ ∅ ∅)) as (Hkeys & _).
  cbn zeta in Hkeys. fold (buildItemMappings_of items g) in Hkeys.
  cbn [G.with_tables G.compToItemKey] in Hkeys. rewrite Hkeys.
  destruct (last (filter _ items)) as [it|] eqn:Hl; [|apply lookup_empty].
  apply last_filter_elem in Hl as [_ H0]. by apply labelsOf_not_zero in H0.
Qed.

(** X18. A start-up that succeeds from a state with nothing hovered ends with
    the grey buffer on the canvas, nothing hovered, the canvas in step, the
    image size of the grey image, tables that map label 0 to no item, and
    the count and label array of the segmentation of the grey buffer. *)
Theorem init_leaves_grey_canvas (items : list Item) (b : Browser)
  (g g' : G.t) :
  init_of items b g = Some (inr g') → G.hoverItemKey g = None →
  G.canvas g' = G.greyData g' ∧ G.hoverItemKey g' = None ∧ synced g' ∧
  G.compToItemKey g' !! 0 = None ∧
  (∃ greyI, greyImg b = Some greyI ∧
     G.W g' = naturalWidth greyI ∧ G.H g' = naturalHeight greyI) ∧
  segment (Z.to_nat (G.W g' * G.H g')) (G.W g') (G.H g') (G.greyData g')
    = Some (G.compIdAt g', G.compCount g').
Proof.
  intros (greyI & colorI & grey & color & l & n & _ & _ & Hgi & _ & _ & _ &
          _ & _ & Hseg & ->)%init_of_inr Hh.
  set (g1 := G.with_images g (naturalWidth greyI) (naturalHeight greyI)
               grey color).
  set (g2 := G.with_segmentation g1 l n).
  destruct (redraw_frame (buildItemMappings_of items g2))
    as (HW & HH & Hgr & _ & Hids & Hcnt & Hho).
  destruct (buildItemMappings_of_frame items g2)
    as (HW2 & HH2 & Hids2 & Hgr2 & _ & Hho2).
  assert (G.hoverItemKey g2 = None) as Hh2 by exact Hh.
  assert (G.hoverItemKey (redraw (buildItemMappings_of items g2)) = None)
    as Hnone by (by rewrite Hho, Hho2).
  assert (G.canvas (redraw (buildItemMappings_of items g2)) =
          G.greyData (redraw (buildItemMappings_of items g2))) as Hcanvas.
  { rewrite Hgr. apply redraw_early. left. by rewrite Hho2, Hh2. }
  split; [done|]. split; [done|]. split; [unfold synced; by rewrite redraw_redraw|].
  split.
  { rewrite redraw_as_with_canvas. cbn [G.with_canvas G.compToItemKey].
    apply (tables_zero_unmapped items g2). }
  split; [exists greyI; by rewrite HW, HH, HW2, HH2|].
  rewrite HW, HH, HW2, HH2, Hgr, Hgr2, Hids, Hids2, Hcnt.
  rewrite (buildItemMappings_of_compCount items g2). exact Hseg.
Qed.

(** The start-up of the 2 x 2 grey and 1 x 1 colour images. *)
Lemma init_leaves_grey_canvas_witness :
  ∃ g', init_of ITEMS mismatchBrowser G.initial = Some (inr g') ∧
        G.canvas g' = G.greyData g' ∧ G.hoverItemKey g' = None.
Proof.
  destruct (init_of ITEMS mismatchBrowser G.initial) as [[e|g']|] eqn:Hinit;
    [vm_compute in Hinit; discriminate| |vm_compute in Hinit; discriminate].
  exists g'. split; [reflexivity|].
  destruct (init_leaves_grey_canvas ITEMS mismatchBrowser G.initial g' Hinit)
    as (Hc & Hh & _); [reflexivity|].
  split; [exact Hc|exact Hh].
Defined.

(** ** Hit test in double precision *)

(** A double whose floor is a positive integer is finite and positive. *)
Lemma floor_positive (f : float) (z : Z) :
  F64.floor f = F64.Int z → 0 < z → ∃ m e, Prim2SF f = S754_finite false m e.
Proof.
  unfold F64.floor. destruct (Prim2SF f) as [s|s| |s m e].
  - intros [= <-]. lia.
  - by destruct s.
  - done.
  - destruct s; [|by eexists _, _]. intros [= <-] Hz. exfalso.
    destruct (Z.leb_spec 0 e).
    + pose proof (Z.pow_pos_nonneg 2 e). nia.
    + pose proof (Z.pow_pos_nonneg 2 (- e)).
      assert (Z.neg m / 2 ^ (- e) < 0); [|lia].
      apply Z.div_lt_upper_bound; lia.
Qed.

(** A positive number divided by the width 0 is [Infinity], and the
    product of a number with [Infinity] has no integer floor. *)
Lemma floor_scaled_by_zero (n c l : float) (z : Z) :
  F64.floor n = F64.Int z → 0 < z →
  ∀ k, F64.floor ((c - l) * (n / 0))%float ≠ F64.Int k.
Proof.
  intros Hn Hz k. destruct (floor_positive n z Hn Hz) as (m & e & Hf).
  unfold F64.floor. rewrite mul_spec, div_spec, Hf.
  change (Prim2SF 0) with (S754_zero false).
  destruct (Prim2SF (c - l)) as [s|s| |s m' e']; cbn; by try destruct s.
Qed.

(** X19. A canvas that is not laid out has a bounding rectangle of width or
    height 0.  The scale is then [Infinity], the image coordinate an
    infinity or NaN, and the hit test answers 0 for every pointer position
    and every label array. *)
Theorem hit_test_zero_size_rectangle (W H : Z) (ids : list Z)
  (rect : F64.Rect) (cx cy : float) :
  0 < W → 0 < H →
  F64.floor (F64.ofZ W) = F64.Int W → F64.floor (F64.ofZ H) = F64.Int H →
  F64.rect_width rect = 0%float ∨ F64.rect_height rect = 0%float →
  F64.componentAtClientXY W H ids rect cx cy = 0.
Proof.
  intros HW HH HWd HHd Hzero.
  unfold F64.componentAtClientXY, F64.clientToPixel. cbv beta iota zeta.
  destruct Hzero as [Hz|Hz]; rewrite Hz.
  - pose proof (floor_scaled_by_zero _ cx (F64.rect_left rect) W HWd HW) as Hx.
    destruct (F64.floor ((cx - _) * _)) as [| | |x]; cbn [F64.lt0 F64.ge orb];
      [by destruct (_ || _)|done|done|by destruct (Hx x)].
  - pose proof (floor_scaled_by_zero _ cy (F64.rect_top rect) H HHd HH) as Hy.
    destruct (F64.floor ((cy - _) * _)) as [| | |y];
      [| | |by destruct (Hy y)];
      destruct (F64.floor ((cx - _) * _)) as [| | |x];
      cbn [F64.lt0 F64.ge orb]; try done; try (by destruct (_ || _));
      by rewrite !orb_true_r.
Qed.

(** The 3 x 1 sample under a rectangle of width 0: the pointer that hits
    pixel 2 in the rectangle 30 wide hits nothing. *)
Lemma hit_test_zero_size_rectangle_witness :
  F64.componentAtClientXY 3 1 [1; 0; 2] (F64.mkRect 10 20 0 10) 35 25 = 0 ∧
  F64.componentAtClientXY 3 1 [1; 0; 2] (F64.mkRect 10 20 30 10) 35 25 = 2.
Proof.
  split; [|vm_compute; reflexivity].
  apply (hit_test_zero_size_rectangle 3 1 [1; 0; 2] (F64.mkRect 10 20 0 10));
    [lia|lia|vm_compute; reflexivity|vm_compute; reflexivity|by left].
Defined.

(** ** Start-up *)


